(** * A shallow embedding of the reliable-UDP senders of the repository

    [src/client_tahoe.py] (the windowed TCP-Tahoe-like sender),
    [src/client_saw.py] (stop-and-wait) and [src/client_burst1.py]
    (burst sender).

    Modelling choices:
    - Python integers (sequence numbers, ACK numbers) are [Z].
    - Python numbers that may become floats ([cwnd], [ssthresh], the RTT
      estimates, timestamps) are exact rationals [Q]; the float rounding of
      [+], [*] and [/] is abstracted away, comparisons are exact.
    - A [bytes]/[bytearray] is a [list byte].
    - The ordered dictionary [outstanding] is an association list in
      insertion order; [send_times] (never iterated) is a [gmap Z Q].
    - Each iteration of the [while] loop of [main] is one [step]; the
      environment of an iteration (the data source, the clock [time.time()],
      the datagram returned by [recvfrom] or a socket timeout) is an
      argument of the step.
    - An uncaught Python exception ends the session: [Crash]. *)

From Stdlib Require Import QArith Qabs Qround Lqa Strings.Byte.
From Stdlib Require Strings.String Sorting.Sorted.
From stdpp Require Import base list gmap.

Open Scope Q_scope.

(** Python's [<] on numbers. *)
Definition Qlt_bool (a b : Q) : bool := negb (Qle_bool b a).

(** ** Bytes and the [struct] framing *)

Definition bytes := list byte.

Definition byte_of_Z (z : Z) : byte :=
  match Byte.of_N (Z.to_N (Z.land z 255)) with
  | Some b => b
  | None => x00
  end.

(** [struct.pack(">I", v)]: four big-endian bytes; [None] stands for the
    [struct.error] raised when [v] is out of [0 .. 2^32-1]. *)
Definition pack_u32 (v : Z) : option bytes :=
  if ((0 <=? v)%Z && (v <? 2 ^ 32)%Z)%bool then
    Some [byte_of_Z (Z.shiftr v 24); byte_of_Z (Z.shiftr v 16);
          byte_of_Z (Z.shiftr v 8); byte_of_Z v]
  else None.

(** [struct.pack(">II", a, b)] *)
Definition pack_II (a b : Z) : option bytes :=
  match pack_u32 a, pack_u32 b with
  | Some x, Some y => Some (x ++ y)
  | _, _ => None
  end.

Definition be_value (bs : bytes) : Z :=
  fold_left (fun acc b => Z.lor (Z.shiftl acc 8) (Z.of_N (Byte.to_N b))) bs 0%Z.

(** [struct.unpack(">II", buf)]: succeeds only when [len(buf) == 8]. *)
Definition unpack_II (buf : bytes) : option (Z * Z) :=
  if Nat.eqb (length buf) 8 then
    Some (be_value (firstn 4 buf), be_value (skipn 4 buf))
  else None.

(** [s.recvfrom(100)] keeps at most 100 bytes of a datagram. *)
Definition recv_bufsize : nat := 100.

(** ** Outcomes of one loop iteration *)

Inductive exn :=
  | KeyError      (* missing dictionary key *)
  | StructError   (* struct.pack / struct.unpack failure *)
  | TypeError
  | ZeroDivisionError.

Inductive outcome (S : Type) :=
  | Next (s : S)     (* the loop continues in state [s] *)
  | Done (s : S)     (* the loop has exited *)
  | Crash (e : exn). (* an uncaught exception ends the session *)
Arguments Next {S} s.
Arguments Done {S} s.
Arguments Crash {S} e.

(** ** Python dictionaries that keep insertion order *)

Fixpoint dict_get {V} (k : Z) (d : list (Z * V)) : option V :=
  match d with
  | [] => None
  | (k', v) :: d' => if Z.eqb k k' then Some v else dict_get k d'
  end.

(** [d[k] = v]: update in place when present, append otherwise. *)
Fixpoint dict_set {V} (k : Z) (v : V) (d : list (Z * V)) : list (Z * V) :=
  match d with
  | [] => [(k, v)]
  | (k', v') :: d' =>
      if Z.eqb k k' then (k', v) :: d' else (k', v') :: dict_set k v d'
  end.

(** [if k in d.keys(): del(d[k])] *)
Fixpoint dict_del {V} (k : Z) (d : list (Z * V)) : list (Z * V) :=
  match d with
  | [] => []
  | (k', v') :: d' => if Z.eqb k k' then d' else (k', v') :: dict_del k d'
  end.

(** [next(iter(d), default)]: the oldest key, or [default]. *)
Definition first_key {V} (d : list (Z * V)) (default : Z) : Z :=
  match d with
  | (k, _) :: _ => k
  | [] => default
  end.

(** Python's [len(d)], as a number comparable with [cwnd]. *)
Definition qlen {V} (d : list (Z * V)) : Q := inject_Z (Z.of_nat (length d)).

(** ** [client_tahoe.py] *)

Module Tahoe.

(** [estimated_rtt_calc]: [a = 0.125]. *)
Definition estimated_rtt_calc (sample_rtt estimated_rtt : Q) : Q :=
  let a := 1 # 8 in
  a * sample_rtt + (1 - a) * estimated_rtt.

(** [dev_rtt_calc]: [b = 0.25]. *)
Definition dev_rtt_calc (sample_rtt estimated_rtt dev_rtt : Q) : Q :=
  let b := 1 # 4 in
  b * Qabs (sample_rtt - estimated_rtt) + (1 - b) * dev_rtt.

Definition magic : Z := 0xBAADCAFE.

(** The local variables of [main] that live across loop iterations, plus
    the observable effects: packets handed to [s.sendto], rows written with
    [trace.write], and the calls [datasource.wait_for_data(seqno)] with
    whether they returned data. *)
Record St := mkSt {
  timeout : Q;
  estimated_rtt : Q;
  dev_rtt : Q;
  send_times : gmap Z Q;
  cwnd : Q;
  ssthresh : Q;
  seqno : Z;
  desired_ackno : Z;
  body : option bytes;
  have_more_data : bool;
  outstanding : list (Z * bytes);
  state : Z;
  start : Q;
  sent : list bytes;
  trace_rows : list (Z * Q * Z * Q);
  queries : list (Z * bool)
}.

(** [main(host, port, n, t)] up to the [while] loop; [start] is the
    [time.time()] read before it. *)
Definition init (n : Z) (t : Q) (start0 : Q) : St := {|
  timeout := t; estimated_rtt := t; dev_rtt := 0; send_times := ∅;
  cwnd := 1; ssthresh := inject_Z n; seqno := 0; desired_ackno := 0;
  body := None; have_more_data := true; outstanding := []; state := 0;
  start := start0; sent := []; trace_rows := []; queries := [] |}.

(** [if len(outstanding) >= cwnd]: the window is full. *)
Definition window_full (len : Q) (cwnd : Q) : bool := Qle_bool cwnd len.

(** state 0: [body = datasource.wait_for_data(seqno)]. *)
Definition state0 (ds : Z -> option bytes) (st : St) : outcome St :=
  let b := ds (seqno st) in
  Next {| timeout := timeout st; estimated_rtt := estimated_rtt st;
          dev_rtt := dev_rtt st; send_times := send_times st;
          cwnd := cwnd st; ssthresh := ssthresh st; seqno := seqno st;
          desired_ackno := desired_ackno st; body := b;
          have_more_data := match b with None => false | Some _ => have_more_data st end;
          outstanding := outstanding st;
          state := match b with None => 2%Z | Some _ => 1%Z end;
          start := start st; sent := sent st; trace_rows := trace_rows st;
          queries := queries st ++ [(seqno st, bool_decide (is_Some b))] |}.

(** state 1: frame and send one packet, record it, advance [seqno]. *)
Definition state1 (now : Q) (st : St) : outcome St :=
  match pack_II magic (seqno st) with
  | None => Crash StructError
  | Some hdr =>
    match body st with
    | None => Crash TypeError
    | Some b =>
      let pkt := hdr ++ b in
      let out' := dict_set (seqno st) pkt (outstanding st) in
      Next {| timeout := timeout st; estimated_rtt := estimated_rtt st;
              dev_rtt := dev_rtt st;
              send_times := <[seqno st := now]> (send_times st);
              cwnd := cwnd st; ssthresh := ssthresh st;
              seqno := (seqno st + 1)%Z;
              desired_ackno := desired_ackno st; body := body st;
              have_more_data := have_more_data st; outstanding := out';
              state := if window_full (qlen out') (cwnd st) then 2%Z else 0%Z;
              start := start st; sent := sent st ++ [pkt];
              trace_rows := trace_rows st ++ [(seqno st, now - start st, 0%Z, 0)];
              queries := queries st |}
    end
  end.

(** state 2, [except (socket.timeout, socket.error)]: the loss path. *)
Definition on_timeout (st : St) : St := {|
  timeout := timeout st * 2; estimated_rtt := estimated_rtt st;
  dev_rtt := dev_rtt st; send_times := send_times st;
  cwnd := 1; ssthresh := inject_Z (Qfloor (cwnd st / 2));
  seqno := seqno st; desired_ackno := desired_ackno st; body := body st;
  have_more_data := have_more_data st; outstanding := outstanding st;
  state := 3; start := start st; sent := sent st;
  trace_rows := trace_rows st; queries := queries st |}.

(** state 2, after the ACK has been unpacked into [ackno]. *)
Definition on_ack (now : Q) (ackno : Z) (st : St) : outcome St :=
  match send_times st !! ackno with
  | None => Crash KeyError
  | Some ts =>
    let sample_rtt := now - ts in
    let est := estimated_rtt_calc sample_rtt (estimated_rtt st) in
    let dev := dev_rtt_calc sample_rtt est (dev_rtt st) in
    let to := est + 4 * dev in
    let rows := trace_rows st ++ [(0%Z, 0, ackno, now - start st)] in
    let out' := dict_del ackno (outstanding st) in
    if Z.eqb ackno (desired_ackno st) then
      Next {| timeout := to; estimated_rtt := est; dev_rtt := dev;
              send_times := send_times st;
              cwnd := if Qlt_bool (cwnd st) (ssthresh st)
                      then cwnd st + 1 else cwnd st + 1 / cwnd st;
              ssthresh := ssthresh st; seqno := seqno st;
              desired_ackno := first_key out' (seqno st);
              body := body st; have_more_data := have_more_data st;
              outstanding := out'; state := 0; start := start st;
              sent := sent st; trace_rows := rows; queries := queries st |}
    else
      Next {| timeout := to; estimated_rtt := est; dev_rtt := dev;
              send_times := send_times st; cwnd := cwnd st;
              ssthresh := ssthresh st; seqno := seqno st;
              desired_ackno := desired_ackno st;
              body := body st; have_more_data := have_more_data st;
              outstanding := out';
              state := if window_full (qlen out') (cwnd st) then 2%Z else 0%Z;
              start := start st; sent := sent st; trace_rows := rows;
              queries := queries st |}
  end.

(** state 2: [rx] is the datagram [recvfrom] returned, [None] when the
    socket timed out. *)
Definition state2 (now : Q) (rx : option bytes) (st : St) : outcome St :=
  match rx with
  | None => Next (on_timeout st)
  | Some dgram =>
    match unpack_II (firstn recv_bufsize dgram) with
    | None => Crash StructError
    | Some (_, ackno) => on_ack now ackno st
    end
  end.

(** state 3: resend [outstanding[desired_ackno]]. *)
Definition state3 (now : Q) (st : St) : outcome St :=
  match dict_get (desired_ackno st) (outstanding st) with
  | None => Crash KeyError
  | Some pkt =>
    Next {| timeout := timeout st; estimated_rtt := estimated_rtt st;
            dev_rtt := dev_rtt st;
            send_times := <[desired_ackno st := now]> (send_times st);
            cwnd := cwnd st; ssthresh := ssthresh st; seqno := seqno st;
            desired_ackno := desired_ackno st; body := body st;
            have_more_data := have_more_data st;
            outstanding := outstanding st; state := 2; start := start st;
            sent := sent st ++ [pkt];
            trace_rows := trace_rows st ++ [(seqno st, now - start st, 0%Z, 0)];
            queries := queries st |}
  end.

(** [while have_more_data or len(outstanding) > 0]. *)
Definition loop_cond (st : St) : bool :=
  have_more_data st || Nat.ltb 0 (length (outstanding st)).

(** One iteration of the loop. *)
Definition step (ds : Z -> option bytes) (now : Q) (rx : option bytes)
    (st : St) : outcome St :=
  if loop_cond st then
    match state st with
    | 0%Z => state0 ds st
    | 1%Z => state1 now st
    | 2%Z => state2 now rx st
    | 3%Z => state3 now st
    | _ => Done st
    end
  else Done st.

(** The states reachable from [main(host, port, n, t)]. *)
Inductive reachable (n : Z) (t start0 : Q) : St -> Prop :=
  | reach_init : reachable n t start0 (init n t start0)
  | reach_step ds now rx st st' :
      reachable n t start0 st -> step ds now rx st = Next st' ->
      reachable n t start0 st'.

End Tahoe.

(** ** [client_saw.py] *)

Module Saw.

Definition magic : Z := 0xBAADCAFE.

(** [t_send] is the local [tSend]; Python leaves it unbound until the
    first send, and state 2, which reads it, is only entered after one. *)
Record St := mkSt {
  seqno : Z;
  body : option bytes;
  have_more_data : bool;
  state : Z;
  start : Q;
  t_send : Q;
  sent : list bytes;
  trace_rows : list (Z * Q * Z * Q);
  queries : list (Z * bool)
}.

Definition init (start0 : Q) : St := {|
  seqno := 0; body := None; have_more_data := true; state := 0;
  start := start0; t_send := 0; sent := []; trace_rows := []; queries := [] |}.

(** One iteration of [while have_more_data]. [s.recvfrom(100)] has no
    timeout: with nothing received ([rx = None]) the iteration has not
    completed yet and the state is unchanged. *)
Definition step (ds : Z -> option bytes) (now : Q) (rx : option bytes)
    (st : St) : outcome St :=
  if have_more_data st then
    match state st with
    | 0%Z =>
      let b := ds (seqno st) in
      Next {| seqno := seqno st; body := b;
              have_more_data := match b with None => false | Some _ => true end;
              state := match b with None => state st | Some _ => 1%Z end;
              start := start st; t_send := t_send st; sent := sent st;
              trace_rows := trace_rows st;
              queries := queries st ++ [(seqno st, bool_decide (is_Some b))] |}
    | 1%Z =>
      match pack_II magic (seqno st), body st with
      | None, _ => Crash StructError
      | _, None => Crash TypeError
      | Some hdr, Some b =>
        Next {| seqno := seqno st; body := body st; have_more_data := true;
                state := 2; start := start st; t_send := now;
                sent := sent st ++ [hdr ++ b]; trace_rows := trace_rows st;
                queries := queries st |}
      end
    | 2%Z =>
      match rx with
      | None => Next st
      | Some dgram =>
        match unpack_II (firstn recv_bufsize dgram) with
        | None => Crash StructError
        | Some (_, ackno) =>
          Next {| seqno := seqno st + 1; body := body st; have_more_data := true;
                  state := 0; start := start st; t_send := t_send st;
                  sent := sent st;
                  trace_rows := trace_rows st ++
                    [(seqno st, t_send st - start st, ackno, now - start st)];
                  queries := queries st |}
        end
      end
    | _ => Done st
    end
  else Done st.

End Saw.

(** ** [client_burst1.py] *)

Module Burst.

Definition magic : Z := 0xBAADCAFE.

Record St := mkSt {
  n : Z;
  t : Q;
  seqno : Z;
  body : option bytes;
  have_more_data : bool;
  state : Z;
  start : Q;
  sent : list bytes;
  trace_rows : list (Z * Q * Z * Q);
  queries : list (Z * bool)
}.

Definition init (n0 : Z) (t0 : Q) (start0 : Q) : St := {|
  n := n0; t := t0; seqno := 0; body := None; have_more_data := true;
  state := 0; start := start0; sent := []; trace_rows := []; queries := [] |}.

Definition set_state (s : Z) (st : St) : St := {|
  n := n st; t := t st; seqno := seqno st; body := body st;
  have_more_data := have_more_data st; state := s; start := start st;
  sent := sent st; trace_rows := trace_rows st; queries := queries st |}.

(** One iteration of [while have_more_data]; the [time.sleep(t)] of
    state 1 has no effect on the modelled state. No ACK is ever read. *)
Definition step (ds : Z -> option bytes) (now : Q) (rx : option bytes)
    (st : St) : outcome St :=
  if have_more_data st then
    match state st with
    | 0%Z =>
      let b := ds (seqno st) in
      let st' := {| n := n st; t := t st; seqno := seqno st; body := b;
                    have_more_data := match b with None => false | Some _ => true end;
                    state := state st; start := start st; sent := sent st;
                    trace_rows := trace_rows st;
                    queries := queries st ++ [(seqno st, bool_decide (is_Some b))] |} in
      match b with
      | None => Next st'
      | Some _ =>
        if Z.eqb (n st) 0 then Crash ZeroDivisionError
        else if Z.eqb (Z.modulo (seqno st) (n st)) 0 then Next (set_state 1 st')
        else Next (set_state 2 st')
      end
    | 1%Z => Next (set_state 2 st)
    | 2%Z =>
      match pack_II magic (seqno st), body st with
      | None, _ => Crash StructError
      | _, None => Crash TypeError
      | Some hdr, Some b =>
        Next {| n := n st; t := t st; seqno := seqno st + 1; body := body st;
                have_more_data := true; state := 0; start := start st;
                sent := sent st ++ [hdr ++ b];
                trace_rows := trace_rows st ++ [(seqno st, now - start st, 0%Z, 0)];
                queries := queries st |}
      end
    | _ => Done st
    end
  else Done st.

End Burst.

(** ** Running a sender against a data source and a receiver *)

(** A sender: its loop iteration, the packets it has sent so far, and
    whether its current iteration reads the socket. *)
Record sender := {
  s_state : Type;
  s_step : (Z -> option bytes) -> Q -> option bytes -> s_state -> outcome s_state;
  s_sent : s_state -> list bytes;
  s_reads : s_state -> bool
}.

Inductive result (S : Type) :=
  | RDone (s : S)
  | RCrash (e : exn)
  | ROutOfFuel (s : S).
Arguments RDone {S} s.
Arguments RCrash {S} e.
Arguments ROutOfFuel {S} s.

(** The receiver answers each data packet with a list of datagrams, queued
    for the sender in order. The clock advances by one per iteration; a read
    from an empty queue is a socket timeout. *)
Fixpoint run (M : sender) (ds : Z -> option bytes) (server : bytes -> list bytes)
    (fuel : nat) (s : s_state M) (queue : list bytes) (clock : Q) : result (s_state M) :=
  match fuel with
  | O => ROutOfFuel s
  | S f =>
    let rx := if s_reads M s then head queue else None in
    let queue1 := if s_reads M s then tail queue else queue in
    match s_step M ds clock rx s with
    | Next s' =>
      let fresh := skipn (length (s_sent M s)) (s_sent M s') in
      run M ds server f s' (queue1 ++ flat_map server fresh) (clock + 1)
    | Done s' => RDone s'
    | Crash e => RCrash e
    end
  end.

Definition tahoe : sender := {|
  s_state := Tahoe.St;
  s_step := Tahoe.step;
  s_sent := Tahoe.sent;
  s_reads := fun st => Z.eqb (Tahoe.state st) 2 |}.

Definition saw : sender := {|
  s_state := Saw.St;
  s_step := Saw.step;
  s_sent := Saw.sent;
  s_reads := fun st => Z.eqb (Saw.state st) 2 |}.

Definition burst : sender := {|
  s_state := Burst.St;
  s_step := Burst.step;
  s_sent := Burst.sent;
  s_reads := fun _ => false |}.

(** The spec's degenerate windowed machine, following its words ("the same
    machine with the window fixed at a large constant or at one"): the
    Tahoe loop with [cwnd] held at [w]. *)
Definition set_cwnd (w : Q) (st : Tahoe.St) : Tahoe.St := {|
  Tahoe.timeout := Tahoe.timeout st; Tahoe.estimated_rtt := Tahoe.estimated_rtt st;
  Tahoe.dev_rtt := Tahoe.dev_rtt st; Tahoe.send_times := Tahoe.send_times st;
  Tahoe.cwnd := w; Tahoe.ssthresh := Tahoe.ssthresh st;
  Tahoe.seqno := Tahoe.seqno st; Tahoe.desired_ackno := Tahoe.desired_ackno st;
  Tahoe.body := Tahoe.body st; Tahoe.have_more_data := Tahoe.have_more_data st;
  Tahoe.outstanding := Tahoe.outstanding st; Tahoe.state := Tahoe.state st;
  Tahoe.start := Tahoe.start st; Tahoe.sent := Tahoe.sent st;
  Tahoe.trace_rows := Tahoe.trace_rows st; Tahoe.queries := Tahoe.queries st |}.

Definition spec_fixed_window_step (w : Q) (ds : Z -> option bytes) (now : Q)
    (rx : option bytes) (st : Tahoe.St) : outcome Tahoe.St :=
  match Tahoe.step ds now rx st with
  | Next st' => Next (set_cwnd w st')
  | o => o
  end.

Definition spec_fixed_window (w : Q) : sender := {|
  s_state := Tahoe.St;
  s_step := spec_fixed_window_step w;
  s_sent := Tahoe.sent;
  s_reads := fun st => Z.eqb (Tahoe.state st) 2 |}.

Definition spec_fixed_window_init (w : Q) (n : Z) (t start0 : Q) : Tahoe.St :=
  set_cwnd w (Tahoe.init n t start0).

(** Receivers: one that acknowledges every data packet at once by echoing
    its header (marker, seqno), and one that never answers. *)
Definition echo_server (pkt : bytes) : list bytes := [firstn 8 pkt].
Definition silent_server (pkt : bytes) : list bytes := [].

(** A data source with [k] one-byte chunks. *)
Definition chunks (k : Z) (seq : Z) : option bytes :=
  if (seq <? k)%Z then Some [byte_of_Z seq] else None.

(** [struct.pack(">II", 0xBAADCAFE, k)]: the header of data packet [k], and
    the ACK datagram [marker | ackno] for [k]. *)
Definition header (k : Z) : bytes :=
  match pack_II Tahoe.magic k with Some p => p | None => [] end.

(** A receiver that answers every data packet with the ACK number [k]. *)
Definition const_ack_server (k : Z) (pkt : bytes) : list bytes := [header k].

Definition sent_of {M : sender} (r : result (s_state M)) : list bytes :=
  match r with
  | RDone s | ROutOfFuel s => s_sent M s
  | RCrash _ => []
  end.

(** Concrete sessions used below. [exec] replays the loop on a list of
    (clock, datagram) inputs with a fixed data source. *)
Fixpoint exec (ds : Z -> option bytes) (ins : list (Q * option bytes))
    (st : Tahoe.St) : outcome Tahoe.St :=
  match ins with
  | [] => Next st
  | (now, rx) :: ins' =>
    match Tahoe.step ds now rx st with
    | Next st' => exec ds ins' st'
    | o => o
    end
  end.

Definition outcome_state (o : outcome Tahoe.St) (dflt : Tahoe.St) : Tahoe.St :=
  match o with Next s => s | _ => dflt end.

(** [main(host, port, 8, 1.0)] with two chunks of data: segment 0 is sent
    and acknowledged, segment 1 is sent, the source reports end-of-data and
    the loop waits in state 2 with segment 1 outstanding. *)
Definition ex_inputs : list (Q * option bytes) :=
  [(1, None); (2, None); (3, Some (header 0)); (4, None); (5, None); (6, None)].

Definition ex_waiting : Tahoe.St :=
  outcome_state (exec (chunks 2) ex_inputs (Tahoe.init 8 1 0)) (Tahoe.init 8 1 0).

(** The same session after its first iteration (chunk 0 fetched). *)
Definition ex_fetched0 : Tahoe.St :=
  outcome_state (exec (chunks 2) [(1, None)] (Tahoe.init 8 1 0)) (Tahoe.init 8 1 0).

(** The same session right after segment 0 was sent ([cwnd = 1]). *)
Definition ex_sent0 : Tahoe.St :=
  outcome_state (exec (chunks 2) [(1, None); (2, None)] (Tahoe.init 8 1 0))
    (Tahoe.init 8 1 0).

(** ... and after the ACK for segment 0 failed to arrive in time. *)
Definition ex_timed_out : Tahoe.St :=
  outcome_state (exec (chunks 2) [(1, None); (2, None); (3, None)] (Tahoe.init 8 1 0))
    (Tahoe.init 8 1 0).

(** [ex_sent0] once the ACK for segment 0 has been processed at time 3. *)
Definition ex_acked0 : Tahoe.St :=
  outcome_state (Tahoe.on_ack 3 0 ex_sent0) ex_sent0.

(** [ex_waiting] once the ACK for segment 1 has been processed at time 7. *)
Definition ex_acked1 : Tahoe.St :=
  outcome_state (Tahoe.on_ack 7 1 ex_waiting) ex_waiting.

(** A whole session with four chunks and a receiver that acknowledges
    every packet at once. *)
Definition ex_four_chunks_run : result Tahoe.St :=
  run tahoe (chunks 4) echo_server 40 (Tahoe.init 8 1 0) [] 0.

(** What every reachable state of [client_tahoe.py] satisfies: the ledger
    [outstanding] has distinct keys, all below [seqno], as have the keys of
    [send_times]; [desired_ackno] is the oldest outstanding key (or [seqno]);
    [cwnd >= 1]; the data source was only queried at sequence numbers up to
    [seqno], and those that returned data are distinct and below [seqno]
    unless the packet for [seqno] is about to be sent (state 1). *)
Definition Tahoe_inv (st : Tahoe.St) : Prop :=
  List.NoDup (map fst (Tahoe.outstanding st)) /\
  (forall k, In k (map fst (Tahoe.outstanding st)) -> (k < Tahoe.seqno st)%Z) /\
  (forall k ts, Tahoe.send_times st !! k = Some ts -> (k < Tahoe.seqno st)%Z) /\
  Tahoe.desired_ackno st = first_key (Tahoe.outstanding st) (Tahoe.seqno st) /\
  1 <= Tahoe.cwnd st /\
  (forall q b, In (q, b) (Tahoe.queries st) -> (q <= Tahoe.seqno st)%Z) /\
  (forall q, In (q, true) (Tahoe.queries st) ->
     (q < Tahoe.seqno st)%Z \/ (q = Tahoe.seqno st /\ Tahoe.state st = 1%Z)) /\
  List.NoDup (map fst (List.filter snd (Tahoe.queries st))).

(** ** Further definitions *)

(** [range(n)] as a list of integers. *)
Definition zrange (n : Z) : list Z := map Z.of_nat (seq 0 (Z.to_nat n)).

(** The sequence-number column and the ACK columns of a trace row
    [trace.write(seqno, time_sent, ackno, time_acked)]. *)
Definition row_seqno (r : Z * Q * Z * Q) : Z := r.1.1.1.
Definition row_ackno (r : Z * Q * Z * Q) : Z := r.1.2.
Definition row_acked (r : Z * Q * Z * Q) : Q := r.2.

(** Control facts of the Tahoe loop: [seqno] is a natural number, [state]
    is one of 0..3, state 1 has a body to send, state 2 with data left has
    something outstanding, state 3 always has; the ledger keys increase in
    insertion order; the data source returned data exactly at the sequence
    numbers sent so far (plus [seqno] in state 1); every ledger entry is a
    packet that was sent, framed with its own sequence number. *)
Definition Tahoe_ctrl_inv (st : Tahoe.St) : Prop :=
  (0 <= Tahoe.seqno st)%Z /\
  (Tahoe.state st = 0 \/ Tahoe.state st = 1 \/ Tahoe.state st = 2 \/
   Tahoe.state st = 3)%Z /\
  (Tahoe.state st = 1%Z -> is_Some (Tahoe.body st)) /\
  (Tahoe.state st = 2%Z ->
     Tahoe.outstanding st <> [] \/ Tahoe.have_more_data st = false) /\
  (Tahoe.state st = 3%Z -> Tahoe.outstanding st <> []) /\
  Sorted.StronglySorted Z.lt (map fst (Tahoe.outstanding st)) /\
  map fst (List.filter snd (Tahoe.queries st)) =
    zrange (Tahoe.seqno st) ++
    (if Z.eqb (Tahoe.state st) 1 then [Tahoe.seqno st] else []) /\
  (forall k p, In (k, p) (Tahoe.outstanding st) ->
     In p (Tahoe.sent st) /\
     exists hdr b, pack_II Tahoe.magic k = Some hdr /\ p = hdr ++ b).


(** Loop inputs where every wait for an ACK times out, each followed by the
    retransmission at clock [c]. *)
Definition loss_inputs (clocks : list Q) : list (Q * option bytes) :=
  flat_map (fun c => [(c, None); (c, None)]) clocks.

(** The states reachable from [main(host, port)] of [client_saw.py] and
    [main(host, port, n, t)] of [client_burst1.py]. *)
Inductive saw_reachable (start0 : Q) : Saw.St -> Prop :=
  | sreach_init : saw_reachable start0 (Saw.init start0)
  | sreach_step ds now rx st st' :
      saw_reachable start0 st -> Saw.step ds now rx st = Next st' ->
      saw_reachable start0 st'.

Inductive burst_reachable (n0 : Z) (t0 start0 : Q) : Burst.St -> Prop :=
  | breach_init : burst_reachable n0 t0 start0 (Burst.init n0 t0 start0)
  | breach_step ds now rx st st' :
      burst_reachable n0 t0 start0 st -> Burst.step ds now rx st = Next st' ->
      burst_reachable n0 t0 start0 st'.

(** [bool(have_more_data)] is false only after the source returned [None]
    for the current [seqno] (the last query). *)
Definition ended_at (hmd : bool) (state : Z) (queries : list (Z * bool)) (seqno : Z) : Prop :=
  hmd = false -> state = 0%Z /\ exists qs, queries = qs ++ [(seqno, false)].

Definition Saw_inv (st : Saw.St) : Prop :=
  (0 <= Saw.seqno st)%Z /\
  (Saw.state st = 0 \/ Saw.state st = 1 \/ Saw.state st = 2)%Z /\
  (Saw.state st = 1%Z -> is_Some (Saw.body st)) /\
  map (firstn 8) (Saw.sent st) =
    map header (zrange (Saw.seqno st + if Z.eqb (Saw.state st) 2 then 1 else 0)) /\
  map row_seqno (Saw.trace_rows st) = zrange (Saw.seqno st) /\
  ended_at (Saw.have_more_data st) (Saw.state st) (Saw.queries st) (Saw.seqno st).

Definition Burst_inv (n0 : Z) (t0 : Q) (st : Burst.St) : Prop :=
  Burst.n st = n0 /\ Burst.t st = t0 /\
  (0 <= Burst.seqno st)%Z /\
  (Burst.state st = 0 \/ Burst.state st = 1 \/ Burst.state st = 2)%Z /\
  (Burst.state st <> 0%Z -> is_Some (Burst.body st) /\ n0 <> 0%Z) /\
  (Burst.state st = 1%Z -> Z.modulo (Burst.seqno st) n0 = 0%Z) /\
  map (firstn 8) (Burst.sent st) = map header (zrange (Burst.seqno st)) /\
  map row_seqno (Burst.trace_rows st) = zrange (Burst.seqno st) /\
  (forall r, In r (Burst.trace_rows st) -> row_ackno r = 0%Z /\ row_acked r = 0) /\
  ended_at (Burst.have_more_data st) (Burst.state st) (Burst.queries st) (Burst.seqno st).

(** The state a run stopped in when it ran out of fuel. *)
Definition fuel_state {S} (r : result S) (dflt : S) : S :=
  match r with ROutOfFuel s => s | _ => dflt end.

(** Concrete sessions: stop-and-wait waiting for the ACK of packet 0;
    stop-and-wait after its one chunk was acknowledged and the source
    signalled end-of-data; the Tahoe loop after segment 0 was sent and
    acknowledged at clock 2. *)
Definition ex_saw_waiting : Saw.St :=
  fuel_state (run saw (chunks 2) silent_server 2 (Saw.init 0) [] 0) (Saw.init 0).
Definition ex_saw_ended : Saw.St :=
  fuel_state (run saw (chunks 1) echo_server 4 (Saw.init 0) [] 0) (Saw.init 0).
Definition ex_burst_ended : Burst.St :=
  fuel_state (run burst (chunks 3) silent_server 9 (Burst.init 2 1 0) [] 0)
    (Burst.init 2 1 0).

(** *** The [if __name__ == "__main__"] blocks

    [int(...)] and [float(...)] are Python builtins, kept abstract: they
    either return a number or raise [ValueError] ([None]). *)
Inductive cli_outcome (A : Type) :=
  | CliUsage          (* usage printed, [sys.exit(0)] *)
  | CliRun (a : A)    (* [main(...)] called with the parsed arguments *)
  | CliIndexError     (* [sys.argv[i]] out of range *)
  | CliValueError.    (* [int(...)] or [float(...)] rejected an argument *)
Arguments CliUsage {A}.
Arguments CliRun {A} a.
Arguments CliIndexError {A}.
Arguments CliValueError {A}.

Section Cli.
Variable py_int : String.string -> option Z.
Variable py_float : String.string -> option Q.

Definition cli_arg {A B} (o : option B) (err : cli_outcome A)
    (k : B -> cli_outcome A) : cli_outcome A :=
  match o with Some x => k x | None => err end.

(** [client_tahoe.py], lines 208-217. *)
Definition tahoe_cli (argv : list String.string) :
    cli_outcome (String.string * Z * Z * Q) :=
  if Nat.leb (length argv) 3 then CliUsage else
  cli_arg (nth_error argv 1) CliIndexError (fun host =>
  cli_arg (nth_error argv 2) CliIndexError (fun a2 =>
  cli_arg (py_int a2) CliValueError (fun port =>
  cli_arg (nth_error argv 3) CliIndexError (fun a3 =>
  cli_arg (py_int a3) CliValueError (fun n =>
  cli_arg (nth_error argv 4) CliIndexError (fun a4 =>
  cli_arg (py_float a4) CliValueError (fun t =>
  CliRun (host, port, n, t)))))))).

(** [client_burst1.py], lines 108-117. *)
Definition burst_cli (argv : list String.string) :
    cli_outcome (String.string * Z * Z * Q) :=
  if Nat.leb (length argv) 4 then CliUsage else
  cli_arg (nth_error argv 1) CliIndexError (fun host =>
  cli_arg (nth_error argv 2) CliIndexError (fun a2 =>
  cli_arg (py_int a2) CliValueError (fun port =>
  cli_arg (nth_error argv 3) CliIndexError (fun a3 =>
  cli_arg (py_int a3) CliValueError (fun n =>
  cli_arg (nth_error argv 4) CliIndexError (fun a4 =>
  cli_arg (py_float a4) CliValueError (fun t =>
  CliRun (host, port, n, t)))))))).

(** [client_saw.py], lines 111-118. *)
Definition saw_cli (argv : list String.string) : cli_outcome (String.string * Z) :=
  if Nat.leb (length argv) 2 then CliUsage else
  cli_arg (nth_error argv 1) CliIndexError (fun host =>
  cli_arg (nth_error argv 2) CliIndexError (fun a2 =>
  cli_arg (py_int a2) CliValueError (fun port =>
  CliRun (host, port)))).

End Cli.

(** Example command lines. *)
Module CliExamples.
Import Stdlib.Strings.String.
Local Open Scope string_scope.
Definition argv_three_args : list String.string :=
  ["client_tahoe.py"; "1.2.3.4"; "6000"; "50"].
Definition argv_four_args : list String.string :=
  ["client_tahoe.py"; "1.2.3.4"; "6000"; "50"; "0.120"].
End CliExamples.

(** ** Generic facts about dictionaries *)

Section Dict.
Context {V : Type}.
Implicit Types (d : list (Z * V)) (k : Z) (v : V).

Lemma dict_set_fresh k v d : ~ In k (map fst d) -> dict_set k v d = d ++ [(k, v)].
Proof.
  induction d as [|[k' v'] d IH]; intros Hk; simpl; [done|].
  destruct (Z.eqb_spec k k') as [->|Hne].
  - exfalso. apply Hk. by left.
  - f_equal. apply IH. intros Hin. apply Hk. by right.
Qed.

Lemma dict_del_notin k d : ~ In k (map fst d) -> dict_del k d = d.
Proof.
  induction d as [|[k' v'] d IH]; intros Hk; simpl; [done|].
  destruct (Z.eqb_spec k k') as [->|Hne].
  - exfalso. apply Hk. by left.
  - f_equal. apply IH. intros Hin. apply Hk. by right.
Qed.

Lemma dict_del_keys_sub k d x : In x (map fst (dict_del k d)) -> In x (map fst d).
Proof.
  induction d as [|[k' v'] d IH]; simpl; [done|].
  destruct (Z.eqb k k'); simpl; [by right|].
  intros [H|H]; [by left | right; auto].
Qed.

Lemma dict_del_nodup k d : List.NoDup (map fst d) -> List.NoDup (map fst (dict_del k d)).
Proof.
  induction d as [|[k' v'] d IH]; simpl; [done|].
  intros Hnd. apply List.NoDup_cons_iff in Hnd as [Hni Hnd].
  destruct (Z.eqb k k'); simpl; [done|].
  apply List.NoDup_cons_iff; split; [|by apply IH].
  intros Hin. by apply Hni, (dict_del_keys_sub k).
Qed.

Lemma dict_del_gone k d : List.NoDup (map fst d) -> ~ In k (map fst (dict_del k d)).
Proof.
  induction d as [|[k' v'] d IH]; simpl; [tauto|].
  intros Hnd. apply List.NoDup_cons_iff in Hnd as [Hni Hnd].
  destruct (Z.eqb_spec k k') as [->|Hne]; [done|].
  simpl. intros [H|H]; [congruence|]. by apply (IH Hnd).
Qed.

Lemma first_key_del_other k d dflt :
  k <> first_key d dflt -> first_key (dict_del k d) dflt = first_key d dflt.
Proof.
  destruct d as [|[k' v'] d]; simpl; [done|].
  intros Hne. destruct (Z.eqb_spec k k'); [congruence|done].
Qed.


Lemma first_key_app d k v dflt : first_key (d ++ [(k, v)]) dflt = first_key d k.
Proof. by destruct d as [|[k' v'] d]. Qed.

Lemma first_key_nil_or d dflt :
  first_key d dflt = dflt \/ In (first_key d dflt) (map fst d).
Proof. destruct d as [|[k' v'] d]; simpl; [by left | right; by left]. Qed.

End Dict.

Lemma dict_get_in {V} (k : Z) (d : list (Z * V)) v :
  dict_get k d = Some v -> In k (map fst d).
Proof.
  induction d as [|[k' v'] d IH]; simpl; [done|].
  destruct (Z.eqb_spec k k') as [->|Hne]; [by left|]. intros H. right; auto.
Qed.

(** ** Invariant of the Tahoe loop *)

Module TahoeInv.
Import Tahoe.

Lemma step_cases ds now rx st st' :
  step ds now rx st = Next st' ->
  (state st = 0%Z /\ state0 ds st = Next st') \/
  (state st = 1%Z /\ state1 now st = Next st') \/
  (state st = 2%Z /\ state2 now rx st = Next st') \/
  (state st = 3%Z /\ state3 now st = Next st').
Proof.
  unfold step. destruct (loop_cond st); [|discriminate].
  intros H. repeat case_match; try discriminate; intuition.
Qed.

Lemma filter_snd_true_in (l : list (Z * bool)) q :
  In q (map fst (List.filter snd l)) -> In (q, true) l.
Proof.
  induction l as [|[q' b] l IH]; simpl; [done|].
  destruct b; simpl; [|intros H; right; auto].
  intros [->|H]; [by left | right; auto].
Qed.

Lemma inv_init n t s : Tahoe_inv (init n t s).
Proof.
  repeat split; simpl; try constructor; done.
Qed.

Lemma inv_state0 ds st st' :
  Tahoe_inv st -> state st = 0%Z -> state0 ds st = Next st' -> Tahoe_inv st'.
Proof.
  intros (Hnd & Hlt & Hst & Hdes & Hcw & Hq & Hqt & Hqnd) Hs0 H.
  unfold state0 in H. injection H as <-.
  unfold Tahoe_inv; simpl.
  repeat split; try done.
  - intros q b [Hin|Hin]%in_app_or; [eauto|].
    destruct Hin as [Hin|[]]. injection Hin as -> _. lia.
  - intros q [Hin|Hin]%in_app_or.
    + destruct (Hqt q Hin) as [Hl|[_ Hc]]; [by left | congruence].
    + destruct Hin as [Hin|[]]. injection Hin as <- Hb.
      right. split; [done|]. destruct (ds (seqno st)); [done|].
      by rewrite bool_decide_eq_false_2 in Hb by (intros [? ?]; done).
  - rewrite List.filter_app, map_app. apply List.NoDup_app; [done| |].
    + destruct (bool_decide (is_Some (ds (seqno st)))); simpl;
        [constructor; [tauto|constructor] | constructor].
    + intros a Ha.
      destruct (bool_decide (is_Some (ds (seqno st)))); simpl; [|tauto].
      intros [<-|[]]. apply filter_snd_true_in in Ha.
      destruct (Hqt _ Ha) as [Hl|[_ Hc]]; [lia | congruence].
Qed.

Lemma inv_state1 now st st' :
  Tahoe_inv st -> state st = 1%Z -> state1 now st = Next st' -> Tahoe_inv st'.
Proof.
  intros (Hnd & Hlt & Hst & Hdes & Hcw & Hq & Hqt & Hqnd) Hs1 H.
  unfold state1 in H.
  destruct (pack_II magic (seqno st)) as [hdr|]; [|discriminate].
  destruct (body st) as [b|]; [|discriminate].
  injection H as <-.
  assert (Hfresh : ~ In (seqno st) (map fst (outstanding st))).
  { intros Hin. specialize (Hlt _ Hin). lia. }
  unfold Tahoe_inv; simpl. rewrite (dict_set_fresh _ _ _ Hfresh).
  repeat split; try done.
  - rewrite map_app. apply List.NoDup_app; [done|constructor; [tauto|constructor]|].
    intros a Ha [<-|[]]. by apply Hfresh.
  - rewrite map_app. intros k [Hin|[<-|[]]]%in_app_or;
      [specialize (Hlt _ Hin)|]; simpl; lia.
  - intros k ts. rewrite lookup_insert.
    case_decide as Hk; [intros _; subst; lia|].
    intros Hk'. specialize (Hst _ _ Hk'). lia.
  - by rewrite first_key_app.
  - intros q b' Hin. specialize (Hq _ _ Hin). lia.
  - intros q Hin. left. destruct (Hqt _ Hin) as [Hl|[-> _]]; lia.
Qed.

Lemma one_le_cwnd_growth (c s : Q) :
  1 <= c -> 1 <= (if Qlt_bool c s then c + 1 else c + 1 / c).
Proof.
  intros Hc. destruct (Qlt_bool c s); [lra|].
  assert (0 < 1 / c).
  { unfold Qdiv. rewrite Qmult_1_l. apply Qinv_lt_0_compat. lra. }
  lra.
Qed.

Lemma inv_on_ack now a st st' :
  Tahoe_inv st -> state st <> 1%Z -> on_ack now a st = Next st' -> Tahoe_inv st'.
Proof.
  intros (Hnd & Hlt & Hst & Hdes & Hcw & Hq & Hqt & Hqnd) Hs H.
  unfold on_ack in H.
  destruct (send_times st !! a) as [ts|]; [|discriminate].
  assert (Hqt' : forall q, In (q, true) (queries st) -> (q < seqno st)%Z).
  { intros q Hin. destruct (Hqt _ Hin) as [Hl|[_ Hc]]; [done|congruence]. }
  destruct (Z.eqb_spec a (desired_ackno st)) as [Ha|Ha];
    injection H as <-; unfold Tahoe_inv; simpl;
    (repeat split; try done);
    try (by apply dict_del_nodup);
    try (intros k Hk; apply Hlt; by apply (dict_del_keys_sub a));
    try (intros q Hin; left; by apply Hqt').
  - by apply one_le_cwnd_growth.
  - rewrite Hdes. symmetry. apply first_key_del_other. by rewrite <- Hdes.
Qed.

Lemma inv_on_timeout st :
  Tahoe_inv st -> state st <> 1%Z -> Tahoe_inv (on_timeout st).
Proof.
  intros (Hnd & Hlt & Hst & Hdes & Hcw & Hq & Hqt & Hqnd) Hs.
  unfold Tahoe_inv; simpl. repeat split; try done.
  intros q Hin. left. destruct (Hqt _ Hin) as [Hl|[_ Hc]]; [done|congruence].
Qed.

Lemma inv_state2 now rx st st' :
  Tahoe_inv st -> state st = 2%Z -> state2 now rx st = Next st' -> Tahoe_inv st'.
Proof.
  intros Hi Hs H. unfold state2 in H.
  destruct rx as [d|].
  - destruct (unpack_II (firstn recv_bufsize d)) as [[m a]|]; [|discriminate].
    apply (inv_on_ack now a st); [done|congruence|done].
  - injection H as <-. apply inv_on_timeout; [done|congruence].
Qed.

Lemma inv_state3 now st st' :
  Tahoe_inv st -> state st = 3%Z -> state3 now st = Next st' -> Tahoe_inv st'.
Proof.
  intros (Hnd & Hlt & Hst & Hdes & Hcw & Hq & Hqt & Hqnd) Hs H.
  unfold state3 in H.
  destruct (dict_get (desired_ackno st) (outstanding st)) as [pkt|] eqn:Hg;
    [|discriminate].
  injection H as <-. apply dict_get_in in Hg.
  unfold Tahoe_inv; simpl. repeat split; try done.
  - intros k ts. rewrite lookup_insert.
    case_decide as Hk; [intros _; subst; by apply Hlt|]. apply Hst.
  - intros q Hin. left. destruct (Hqt _ Hin) as [Hl|[_ Hc]]; [done|congruence].
Qed.

Lemma inv_step ds now rx st st' :
  Tahoe_inv st -> step ds now rx st = Next st' -> Tahoe_inv st'.
Proof.
  intros Hi H.
  destruct (step_cases _ _ _ _ _ H) as [[Hs H']|[[Hs H']|[[Hs H']|[Hs H']]]].
  - by apply (inv_state0 ds st).
  - by apply (inv_state1 now st).
  - by apply (inv_state2 now rx st).
  - by apply (inv_state3 now st).
Qed.

Lemma inv_reachable n t s st : reachable n t s st -> Tahoe_inv st.
Proof.
  induction 1 as [|ds now rx st st' Hr IH Hs].
  - apply inv_init.
  - by apply (inv_step ds now rx st).
Qed.

Lemma exec_reachable n t s ds ins st st' :
  reachable n t s st -> exec ds ins st = Next st' -> reachable n t s st'.
Proof.
  revert st. induction ins as [|[now rx] ins IH]; simpl; intros st Hr H.
  - by injection H as <-.
  - destruct (step ds now rx st) as [s1| |] eqn:Hs; try discriminate.
    apply (IH s1); [|done]. by apply (reach_step _ _ _ ds now rx st).
Qed.

End TahoeInv.

(** ** Runs only ever extend the list of sent packets *)

Section Runs.
Variable M : sender.
Variable ds : Z -> option bytes.
Variable server : bytes -> list bytes.
Hypothesis step_sent_mono : forall ds now rx s s',
  s_step M ds now rx s = Next s' \/ s_step M ds now rx s = Done s' ->
  s_sent M s `prefix_of` s_sent M s'.

Lemma run_done_prefix f s q c x :
  run M ds server f s q c = RDone x -> s_sent M s `prefix_of` s_sent M x.
Proof.
  revert s q c. induction f as [|f IH]; simpl; intros s q c H; [discriminate|].
  destruct (s_step M ds c _ s) as [s'|s'|e] eqn:Hs; try discriminate.
  - etransitivity; [eapply step_sent_mono; left; exact Hs|]. by eapply IH.
  - injection H as <-. eapply step_sent_mono. right; exact Hs.
Qed.

Lemma run_fuel_prefix k f s q c y x :
  run M ds server k s q c = ROutOfFuel y ->
  run M ds server f s q c = RDone x ->
  s_sent M y `prefix_of` s_sent M x.
Proof.
  revert f s q c. induction k as [|k IH]; simpl; intros f s q c Hk Hf.
  - injection Hk as <-. by eapply run_done_prefix.
  - destruct f as [|f]; simpl in Hf; [discriminate|].
    destruct (s_step M ds c _ s) as [s'|s'|e]; try discriminate.
    by eapply IH.
Qed.

End Runs.

Lemma tahoe_step_sent_mono ds now rx st st' :
  Tahoe.step ds now rx st = Next st' \/ Tahoe.step ds now rx st = Done st' ->
  Tahoe.sent st `prefix_of` Tahoe.sent st'.
Proof.
  unfold Tahoe.step, Tahoe.state0, Tahoe.state1, Tahoe.state2, Tahoe.state3,
    Tahoe.on_ack, Tahoe.on_timeout.
  intros [H|H]; repeat case_match; simplify_eq/=;
    first [reflexivity | by apply prefix_app_r].
Qed.

Lemma fixed_window_sent_mono w ds now rx st st' :
  spec_fixed_window_step w ds now rx st = Next st' \/
  spec_fixed_window_step w ds now rx st = Done st' ->
  Tahoe.sent st `prefix_of` Tahoe.sent st'.
Proof.
  unfold spec_fixed_window_step. intros Hor.
  destruct (Tahoe.step ds now rx st) as [s1|s1|e] eqn:Hs;
    destruct Hor as [H|H]; simplify_eq/=;
    apply (tahoe_step_sent_mono ds now rx); auto.
Qed.

(** ** Claims *)

Lemma Qlt_bool_iff (a b : Q) : Qlt_bool a b = true <-> a < b.
Proof.
  unfold Qlt_bool. rewrite negb_true_iff. split; intros H.
  - apply Qnot_le_lt. intros Hle. apply Qle_bool_iff in Hle. congruence.
  - destruct (Qle_bool b a) eqn:E; [|done]. apply Qle_bool_iff in E. lra.
Qed.

Lemma window_full_false_iff (len c : Q) :
  Tahoe.window_full len c = false <-> len < c.
Proof.
  unfold Tahoe.window_full. split; intros H.
  - apply Qnot_le_lt. intros Hle. apply Qle_bool_iff in Hle. congruence.
  - destruct (Qle_bool c len) eqn:E; [|done]. apply Qle_bool_iff in E. lra.
Qed.

Lemma ex_sent0_reachable : Tahoe.reachable 8 1 0 ex_sent0.
Proof.
  apply (TahoeInv.exec_reachable 8 1 0 (chunks 2) [(1, None); (2, None)]
           (Tahoe.init 8 1 0)); [constructor | vm_compute; reflexivity].
Qed.

Lemma ex_timed_out_reachable : Tahoe.reachable 8 1 0 ex_timed_out.
Proof.
  apply (TahoeInv.exec_reachable 8 1 0 (chunks 2) [(1, None); (2, None); (3, None)]
           (Tahoe.init 8 1 0)); [constructor | vm_compute; reflexivity].
Qed.

Lemma ex_waiting_reachable : Tahoe.reachable 8 1 0 ex_waiting.
Proof.
  apply (TahoeInv.exec_reachable 8 1 0 (chunks 2) ex_inputs (Tahoe.init 8 1 0));
    [constructor | vm_compute; reflexivity].
Qed.

(** C4 (counterexample): with [cwnd = 2.5] and two segments outstanding the
    code admits a third one, although [2 < floor(2.5)] is false. *)
Lemma C4_fractional_cwnd_admits_extra :
  ~ (negb (Tahoe.window_full (inject_Z 2) (5 # 2)) = true <->
     (2 < Qfloor (5 # 2))%Z).
Proof. vm_compute. intros [H _]. specialize (H eq_refl). discriminate. Qed.

(** C4 (amended): the admission decision [not (len(outstanding) >= cwnd)]
    holds exactly when the outstanding count is below [cwnd] itself (not
    [floor(cwnd)]); after a send the loop goes back to state 0 (pull more
    data) exactly then. *)
Theorem C4_admission_below_cwnd :
  (forall (k : nat) (c : Q),
     negb (Tahoe.window_full (inject_Z (Z.of_nat k)) c) = true <->
     inject_Z (Z.of_nat k) < c) /\
  (forall now st st', Tahoe.state1 now st = Next st' ->
     Tahoe.state st' = 0%Z <-> qlen (Tahoe.outstanding st') < Tahoe.cwnd st').
Proof.
  split.
  - intros k c. rewrite negb_true_iff. apply window_full_false_iff.
  - intros now st st' H. unfold Tahoe.state1 in H.
    destruct (pack_II Tahoe.magic (Tahoe.seqno st)); [|discriminate].
    destruct (Tahoe.body st); [|discriminate].
    injection H as <-. simpl. rewrite <- window_full_false_iff.
    destruct (Tahoe.window_full _ _); split; intros H; congruence.
Qed.

Lemma C4_witness :
  Tahoe.state ex_sent0 = 0%Z <-> qlen (Tahoe.outstanding ex_sent0) < Tahoe.cwnd ex_sent0.
Proof.
  apply (proj2 C4_admission_below_cwnd 2 ex_fetched0). vm_compute. reflexivity.
Defined.

(** C5: on an ACK equal to [desired_ackno] the window grows by 1 while
    [cwnd < ssthresh] and by [1/cwnd] otherwise; any other ACK number
    leaves [cwnd] and [ssthresh] unchanged. *)
Theorem C5_cwnd_update_on_ack now a st st' :
  Tahoe.on_ack now a st = Next st' ->
  (a = Tahoe.desired_ackno st ->
     (Tahoe.cwnd st < Tahoe.ssthresh st -> Tahoe.cwnd st' = Tahoe.cwnd st + 1) /\
     (Tahoe.ssthresh st <= Tahoe.cwnd st ->
        Tahoe.cwnd st' = Tahoe.cwnd st + 1 / Tahoe.cwnd st)) /\
  (a <> Tahoe.desired_ackno st ->
     Tahoe.cwnd st' = Tahoe.cwnd st /\ Tahoe.ssthresh st' = Tahoe.ssthresh st).
Proof.
  unfold Tahoe.on_ack. intros H.
  destruct (Tahoe.send_times st !! a) as [ts|]; [|discriminate].
  split.
  - intros ->. rewrite Z.eqb_refl in H. injection H as <-. simpl.
    split; intros Hc.
    + by rewrite (proj2 (Qlt_bool_iff _ _) Hc).
    + destruct (Qlt_bool (Tahoe.cwnd st) (Tahoe.ssthresh st)) eqn:E; [|done].
      apply Qlt_bool_iff in E. lra.
  - intros Hne. apply Z.eqb_neq in Hne. rewrite Hne in H.
    by injection H as <-.
Qed.

Lemma C5_witness : Tahoe.cwnd ex_acked0 = Tahoe.cwnd ex_sent0 + 1.
Proof.
  refine (proj1 (proj1 (C5_cwnd_update_on_ack 3 0 ex_sent0 ex_acked0 _) _) _);
    vm_compute; reflexivity.
Defined.

(** C6: the RTT estimator. [estimated_rtt] starts at [t], [dev_rtt] at 0;
    an ACK whose number has a recorded send time [ts] takes the sample
    [now - ts] and updates the three values with the EWMA formulas, the
    deviation using the new estimate. *)
Theorem C6_rtt_estimator :
  (forall n t s, Tahoe.estimated_rtt (Tahoe.init n t s) = t /\
                 Tahoe.dev_rtt (Tahoe.init n t s) = 0) /\
  (forall now a st st', Tahoe.on_ack now a st = Next st' ->
     exists ts, Tahoe.send_times st !! a = Some ts /\
       Tahoe.estimated_rtt st' == (1 # 8) * (now - ts) + (7 # 8) * Tahoe.estimated_rtt st /\
       Tahoe.dev_rtt st' ==
         (1 # 4) * Qabs ((now - ts) - Tahoe.estimated_rtt st') + (3 # 4) * Tahoe.dev_rtt st /\
       Tahoe.timeout st' == Tahoe.estimated_rtt st' + 4 * Tahoe.dev_rtt st').
Proof.
  split; [done|].
  intros now a st st' H. unfold Tahoe.on_ack in H.
  destruct (Tahoe.send_times st !! a) as [ts|]; [|discriminate].
  exists ts. split; [done|].
  destruct (Z.eqb a (Tahoe.desired_ackno st)); injection H as <-;
    cbn [Tahoe.estimated_rtt Tahoe.dev_rtt Tahoe.timeout];
    unfold Tahoe.estimated_rtt_calc, Tahoe.dev_rtt_calc;
    (split; [ring | split; [ring | reflexivity]]).
Qed.

Lemma C6_witness :
  Tahoe.timeout ex_acked0 == Tahoe.estimated_rtt ex_acked0 + 4 * Tahoe.dev_rtt ex_acked0.
Proof.
  destruct (proj2 C6_rtt_estimator 3 0%Z ex_sent0 ex_acked0
              ltac:(vm_compute; reflexivity)) as (ts & _ & _ & _ & H).
  exact H.
Defined.

(** C2 (counterexample): the first timeout of a session, taken with
    [cwnd = 1], sets [ssthresh = 1 // 2 = 0]: no minimum of 1 is applied and
    [ssthresh >= 1] fails in a reachable state. *)
Lemma C2_first_timeout_zero_ssthresh :
  Tahoe.reachable 8 1 0 ex_timed_out /\
  Tahoe.cwnd ex_sent0 = 1 /\ ex_timed_out = Tahoe.on_timeout ex_sent0 /\
  Tahoe.ssthresh ex_timed_out = 0 /\ ~ (1 <= Tahoe.ssthresh ex_timed_out).
Proof.
  split; [apply ex_timed_out_reachable|].
  vm_compute. split; [reflexivity|]. split; [reflexivity|]. split; [reflexivity|].
  intros H. apply H. reflexivity.
Qed.

(** C2 (amended): in every reachable state [cwnd >= 1]; when the wait for
    an ACK times out the loop sets [ssthresh = floor(cwnd / 2)] (no lower
    bound), [cwnd = 1], doubles [timeout] and goes to state 3. *)
Theorem C2_timeout_transition n t s st :
  Tahoe.reachable n t s st ->
  1 <= Tahoe.cwnd st /\
  (Tahoe.state st = 2%Z -> Tahoe.loop_cond st = true ->
   forall ds now, exists st',
     Tahoe.step ds now None st = Next st' /\
     Tahoe.ssthresh st' = inject_Z (Qfloor (Tahoe.cwnd st / 2)) /\
     Tahoe.cwnd st' = 1 /\
     Tahoe.timeout st' = Tahoe.timeout st * 2 /\
     Tahoe.state st' = 3%Z /\
     Tahoe.outstanding st' = Tahoe.outstanding st).
Proof.
  intros Hr. destruct (TahoeInv.inv_reachable _ _ _ _ Hr) as (_ & _ & _ & _ & Hc & _).
  split; [done|]. intros Hs Hl ds now.
  exists (Tahoe.on_timeout st). unfold Tahoe.step. rewrite Hl, Hs. simpl.
  repeat split.
Qed.

Lemma C2_witness : exists st',
  Tahoe.step (chunks 2) 3 None ex_sent0 = Next st' /\
  Tahoe.ssthresh st' = inject_Z (Qfloor (Tahoe.cwnd ex_sent0 / 2)) /\
  Tahoe.cwnd st' = 1 /\
  Tahoe.timeout st' = Tahoe.timeout ex_sent0 * 2 /\
  Tahoe.state st' = 3%Z /\
  Tahoe.outstanding st' = Tahoe.outstanding ex_sent0.
Proof.
  apply (proj2 (C2_timeout_transition 8 1 0 ex_sent0 ex_sent0_reachable));
    vm_compute; reflexivity.
Defined.

(** C3 (counterexample): in state 2 after segment 0 was sent, a 4-byte
    datagram and a 9-byte datagram (a valid ACK for 0 plus one trailing
    byte) both make [struct.unpack(">II", ack)] raise, and [struct.error] is
    not caught: the session ends. The 8-byte ACK for 0 is processed. *)
Lemma C3_short_and_long_acks_crash :
  Tahoe.step (chunks 2) 3 (Some [x00; x00; x00; x00]) ex_sent0 = Crash StructError /\
  Tahoe.step (chunks 2) 3 (Some (header 0 ++ [x00])) ex_sent0 = Crash StructError /\
  Tahoe.step (chunks 2) 3 (Some (header 0)) ex_sent0 = Next ex_acked0.
Proof. vm_compute. repeat split. Qed.

(** C3 (amended): a received datagram (truncated to 100 bytes by
    [recvfrom(100)]) is decoded only when it is exactly 8 bytes long, the
    ACK number being its last four bytes, big-endian; any other length,
    shorter or longer, raises an uncaught [struct.error]. *)
Theorem C3_ack_decoding now dgram st :
  (length dgram <> 8%nat -> Tahoe.state2 now (Some dgram) st = Crash StructError) /\
  (length dgram = 8%nat ->
     Tahoe.state2 now (Some dgram) st = Tahoe.on_ack now (be_value (skipn 4 dgram)) st).
Proof.
  unfold Tahoe.state2, unpack_II, recv_bufsize.
  rewrite length_firstn. split; intros Hl.
  - destruct (Nat.eqb_spec (Nat.min 100 (length dgram)) 8) as [He|]; [|done].
    exfalso. apply Hl. lia.
  - rewrite Hl. simpl. rewrite firstn_all2 by lia. done.
Qed.

Lemma C3_witness :
  Tahoe.state2 3 (Some (header 0 ++ [x00])) ex_sent0 = Crash StructError.
Proof. apply (proj1 (C3_ack_decoding 3 (header 0 ++ [x00]) ex_sent0)). vm_compute. lia. Defined.

(** C1 (code defect): the RTT update reads [send_times[ackno]] before the
    [if ackno in outstanding.keys()] guard. In a reachable state waiting for
    the ACK of segment 1, an ACK numbered 7 (never sent) raises an uncaught
    [KeyError], and a duplicate ACK for the already removed segment 0 leaves
    the ledger and [cwnd] alone but changes the RTT estimate and [timeout]. *)
Theorem C1_unknown_and_stale_acks :
  Tahoe.reachable 8 1 0 ex_waiting /\
  Tahoe.state ex_waiting = 2%Z /\
  map fst (Tahoe.outstanding ex_waiting) = [1%Z] /\
  Tahoe.step (chunks 2) 7 (Some (header 7)) ex_waiting = Crash KeyError /\
  match Tahoe.step (chunks 2) 7 (Some (header 0)) ex_waiting with
  | Next st' =>
      Tahoe.outstanding st' = Tahoe.outstanding ex_waiting /\
      Tahoe.cwnd st' = Tahoe.cwnd ex_waiting /\
      Qeq_bool (Tahoe.estimated_rtt st') (Tahoe.estimated_rtt ex_waiting) = false /\
      Qeq_bool (Tahoe.timeout st') (Tahoe.timeout ex_waiting) = false
  | _ => False
  end.
Proof.
  split; [apply ex_waiting_reachable|].
  vm_compute. repeat split.
Qed.

(** C7 (code defect): state 3 resends exactly the cached packet for
    [desired_ackno] and refreshes its send time, but the trace row it
    writes carries [seqno] (the next new sequence number), not the
    retransmitted [desired_ackno]. Here segment 0 is resent at time 4 and
    logged as segment 1. *)
Theorem C7_retransmit_logs_next_seqno :
  Tahoe.reachable 8 1 0 ex_timed_out /\
  Tahoe.state ex_timed_out = 3%Z /\
  Tahoe.desired_ackno ex_timed_out = 0%Z /\
  Tahoe.seqno ex_timed_out = 1%Z /\
  match Tahoe.step (chunks 2) 4 None ex_timed_out with
  | Next st' =>
      Tahoe.sent st' = Tahoe.sent ex_timed_out ++ [header 0 ++ [byte_of_Z 0]] /\
      Tahoe.send_times st' !! 0%Z = Some 4 /\
      Tahoe.state st' = 2%Z /\
      Tahoe.trace_rows st' = Tahoe.trace_rows ex_timed_out ++ [(1%Z, 4, 0%Z, 0)]
  | _ => False
  end.
Proof.
  split; [apply ex_timed_out_reachable|].
  vm_compute. repeat split.
Qed.

(** C8 (counterexample): in a clean session with four chunks, the source
    signals end-of-data at seqno 4 while segments are still outstanding; the
    next matching ACK sends the loop back to state 0, which asks the source
    for seqno 4 again. *)
Lemma C8_end_of_data_queried_twice :
  match ex_four_chunks_run with
  | RDone s =>
      Tahoe.queries s =
        [(0%Z, true); (1%Z, true); (2%Z, true); (3%Z, true); (4%Z, false); (4%Z, false)] /\
      ~ List.NoDup (map fst (Tahoe.queries s))
  | _ => False
  end.
Proof.
  vm_compute. split; [reflexivity|]. intros H.
  do 4 (apply List.NoDup_cons_iff in H as [_ H]).
  apply List.NoDup_cons_iff in H as [Hn _]. apply Hn. by left.
Qed.

(** C8 (amended): the source is only asked for sequence numbers up to the
    current [seqno], and never twice for one at which it returned data
    (retransmissions resend the packet cached in [outstanding]); the seqno at
    which it signalled end-of-data may be asked again. *)
Theorem C8_source_queries n t s st :
  Tahoe.reachable n t s st ->
  (forall q b, In (q, b) (Tahoe.queries st) -> (q <= Tahoe.seqno st)%Z) /\
  List.NoDup (map fst (List.filter snd (Tahoe.queries st))).
Proof.
  intros Hr. destruct (TahoeInv.inv_reachable _ _ _ _ Hr) as (_ & _ & _ & _ & _ & Hq & _ & Hnd).
  by split.
Qed.

Lemma C8_witness : List.NoDup (map fst (List.filter snd (Tahoe.queries ex_waiting))).
Proof. apply (proj2 (C8_source_queries 8 1 0 ex_waiting ex_waiting_reachable)). Defined.

(** C9: in a reachable state, processing the same ACK number a second time
    right after a successful first processing succeeds and changes neither
    the ledger nor [cwnd] nor [ssthresh]. *)
Theorem C9_duplicate_ack_noop n t s st now now' a st1 :
  Tahoe.reachable n t s st ->
  Tahoe.on_ack now a st = Next st1 ->
  exists st2, Tahoe.on_ack now' a st1 = Next st2 /\
    Tahoe.outstanding st2 = Tahoe.outstanding st1 /\
    Tahoe.cwnd st2 = Tahoe.cwnd st1 /\
    Tahoe.ssthresh st2 = Tahoe.ssthresh st1.
Proof.
  intros Hr H1.
  destruct (TahoeInv.inv_reachable _ _ _ _ Hr) as (Hnd & Hlt & Hst & Hdes & _).
  unfold Tahoe.on_ack in H1.
  destruct (Tahoe.send_times st !! a) as [ts|] eqn:Hts; [|discriminate].
  pose proof (Hst _ _ Hts) as Ha_lt.
  pose proof (dict_del_gone a _ Hnd) as Hgone.
  assert (Hfacts : Tahoe.send_times st1 = Tahoe.send_times st /\
                   Tahoe.outstanding st1 = dict_del a (Tahoe.outstanding st) /\
                   a <> Tahoe.desired_ackno st1).
  { destruct (Z.eqb_spec a (Tahoe.desired_ackno st)) as [Ha|Ha];
      injection H1 as <-; simpl; (split; [done|split; [done|]]); [|done].
    destruct (first_key_nil_or (dict_del a (Tahoe.outstanding st)) (Tahoe.seqno st))
      as [->|Hin]; [lia|].
    intros Heq. rewrite <- Heq in Hin. by apply Hgone. }
  destruct Hfacts as (Hst1 & Hout1 & Hne).
  unfold Tahoe.on_ack. rewrite Hst1, Hts.
  apply Z.eqb_neq in Hne. rewrite Hne.
  eexists. split; [reflexivity|]. simpl.
  rewrite Hout1, dict_del_notin by done. done.
Qed.

Lemma C9_witness : exists st2, Tahoe.on_ack 8 1 ex_acked1 = Next st2 /\
    Tahoe.outstanding st2 = Tahoe.outstanding ex_acked1 /\
    Tahoe.cwnd st2 = Tahoe.cwnd ex_acked1 /\
    Tahoe.ssthresh st2 = Tahoe.ssthresh ex_acked1.
Proof.
  apply (C9_duplicate_ack_noop 8 1 0 ex_waiting 7 8 1 ex_acked1 ex_waiting_reachable).
  vm_compute. reflexivity.
Defined.

(** A finished run of [M] that has sent [l] is impossible once a run of [M]
    out of fuel has already sent more than [l]. *)
Lemma no_done_with_fewer_sends (M : sender) ds server
    (Hmono : forall ds now rx s s',
       s_step M ds now rx s = Next s' \/ s_step M ds now rx s = Done s' ->
       s_sent M s `prefix_of` s_sent M s')
    k s0 y l fuel s :
  run M ds server k s0 [] 0 = ROutOfFuel y ->
  (length l < length (s_sent M y))%nat ->
  run M ds server fuel s0 [] 0 = RDone s -> s_sent M s <> l.
Proof.
  intros Hk Hlen Hf Heq.
  pose proof (run_fuel_prefix M ds server Hmono k fuel s0 [] 0 y s Hk Hf) as Hp.
  apply prefix_length in Hp. rewrite Heq in Hp. lia.
Qed.

(** C10 (counterexample): neither simpler sender behaves like the windowed
    loop with a fixed window. With one chunk and a receiver that never
    answers, the burst sender sends packet 0 once and stops, whereas the loop
    with the window held at 1000 retransmits packet 0 and cannot finish having
    sent it only once. With two chunks and a receiver that always answers
    "ACK 0", stop-and-wait sends packets 0 and 1 and stops, whereas the loop
    with the window held at 1 ignores the second "ACK 0", times out and
    resends packet 1. *)
Lemma C10_variants_not_fixed_window :
  match run burst (chunks 1) silent_server 10 (Burst.init 50 1 0) [] 0 with
  | RDone b => Burst.sent b = [header 0 ++ [byte_of_Z 0]]
  | _ => False
  end /\
  (forall fuel s,
     run (spec_fixed_window 1000) (chunks 1) silent_server fuel
       (spec_fixed_window_init 1000 8 1 0) [] 0 = RDone s ->
     Tahoe.sent s <> [header 0 ++ [byte_of_Z 0]]) /\
  match run saw (chunks 2) (const_ack_server 0) 20 (Saw.init 0) [] 0 with
  | RDone a => Saw.sent a = [header 0 ++ [byte_of_Z 0]; header 1 ++ [byte_of_Z 1]]
  | _ => False
  end /\
  (forall fuel s,
     run (spec_fixed_window 1) (chunks 2) (const_ack_server 0) fuel
       (spec_fixed_window_init 1 8 1 0) [] 0 = RDone s ->
     Tahoe.sent s <> [header 0 ++ [byte_of_Z 0]; header 1 ++ [byte_of_Z 1]]).
Proof.
  split; [vm_compute; reflexivity|].
  split.
  { intros fuel s.
    apply (no_done_with_fewer_sends (spec_fixed_window 1000) _ _
             (fixed_window_sent_mono 1000) 5 _
             (match run (spec_fixed_window 1000) (chunks 1) silent_server 5
                      (spec_fixed_window_init 1000 8 1 0) [] 0 with
              | ROutOfFuel y => y | _ => Tahoe.init 0 0 0 end));
      vm_compute; [reflexivity|lia]. }
  split; [vm_compute; reflexivity|].
  intros fuel s.
  apply (no_done_with_fewer_sends (spec_fixed_window 1) _ _
           (fixed_window_sent_mono 1) 8 _
           (match run (spec_fixed_window 1) (chunks 2) (const_ack_server 0) 8
                    (spec_fixed_window_init 1 8 1 0) [] 0 with
            | ROutOfFuel y => y | _ => Tahoe.init 0 0 0 end));
    vm_compute; [reflexivity|lia].
Qed.

(** C10 (amended): on the clean run (three chunks, then end-of-data, every
    packet acknowledged at once) stop-and-wait sends the three packets, waits
    for and logs three ACKs (0, 1, 2), never retransmits and terminates; the
    loop with the window held at 1 sends the same three packets, matches
    the same three ACKs and terminates with an empty ledger. *)
Theorem C10_clean_run_window_one :
  match run saw (chunks 3) echo_server 20 (Saw.init 0) [] 0,
        run (spec_fixed_window 1) (chunks 3) echo_server 20
          (spec_fixed_window_init 1 8 1 0) [] 0 with
  | RDone a, RDone b =>
      Saw.sent a = [header 0 ++ [byte_of_Z 0]; header 1 ++ [byte_of_Z 1];
                    header 2 ++ [byte_of_Z 2]] /\
      Saw.trace_rows a = [(0%Z, 1, 0%Z, 2); (1%Z, 4, 1%Z, 5); (2%Z, 7, 2%Z, 8)] /\
      Tahoe.sent b = Saw.sent a /\
      Tahoe.outstanding b = [] /\
      Tahoe.trace_rows b =
        [(0%Z, 1, 0%Z, 0); (0%Z, 0, 0%Z, 2); (1%Z, 4, 0%Z, 0); (0%Z, 0, 1%Z, 5);
         (2%Z, 7, 0%Z, 0); (0%Z, 0, 2%Z, 8)]
  | _, _ => False
  end.
Proof. vm_compute. repeat split. Qed.

(** ** Further properties of the code *)

(** *** The [struct] framing *)

Lemma byte_of_Z_value (z : Z) :
  Z.of_N (Byte.to_N (byte_of_Z z)) = (z mod 256)%Z.
Proof.
  unfold byte_of_Z.
  assert (Hl : Z.land z 255 = (z mod 256)%Z)
    by (change 255%Z with (Z.ones 8); by rewrite Z.land_ones).
  rewrite Hl.
  assert (Hb : (0 <= z mod 256 < 256)%Z) by (apply Z.mod_pos_bound; lia).
  destruct (Byte.of_N (Z.to_N (z mod 256))) as [b|] eqn:E.
  - apply Byte.to_of_N in E. rewrite E. lia.
  - apply Byte.of_N_None_iff in E. lia.
Qed.

Lemma lor_shiftl_byte (acc b : Z) :
  (0 <= b < 256)%Z -> Z.lor (Z.shiftl acc 8) b = (acc * 256 + b)%Z.
Proof.
  intros Hb. rewrite Z.shiftl_mul_pow2 by lia.
  assert (H0 : Z.land (acc * 2 ^ 8) b = 0%Z).
  { apply Z.bits_inj'. intros i Hi. rewrite Z.land_spec, Z.bits_0.
    destruct (Z.lt_ge_cases i 8) as [Hlt|Hge].
    - by rewrite Z.mul_pow2_bits_low.
    - rewrite <- (Z.mod_small b (2 ^ 8)) by (simpl; lia).
      rewrite Z.mod_pow2_bits_high by lia. apply andb_false_r. }
  rewrite <- Z.lxor_lor, <- Z.add_nocarry_lxor by done. done.
Qed.

Lemma be_value_u32 (v : Z) :
  (0 <= v < 2 ^ 32)%Z ->
  be_value [byte_of_Z (Z.shiftr v 24); byte_of_Z (Z.shiftr v 16);
            byte_of_Z (Z.shiftr v 8); byte_of_Z v] = v.
Proof.
  intros Hv. unfold be_value. cbn [fold_left].
  rewrite !byte_of_Z_value.
  rewrite !lor_shiftl_byte by (apply Z.mod_pos_bound; lia).
  rewrite !Z.shiftr_div_pow2 by lia.
  replace (2 ^ 24)%Z with (256 * 256 * 256)%Z by reflexivity.
  replace (2 ^ 16)%Z with (256 * 256)%Z by reflexivity.
  replace (2 ^ 8)%Z with 256%Z by reflexivity.
  rewrite <- !Z.div_div by lia.
  assert (H3 : (v / 256 / 256 / 256 < 256)%Z).
  { apply Z.div_lt_upper_bound; [lia|].
    apply Z.div_lt_upper_bound; [lia|].
    apply Z.div_lt_upper_bound; [lia|]. simpl in Hv. lia. }
  assert (H3' : (0 <= v / 256 / 256 / 256)%Z) by (apply Z.div_pos; [apply Z.div_pos; [apply Z.div_pos|]|]; lia).
  rewrite (Z.mod_small (v / 256 / 256 / 256)) by lia.
  pose proof (Z.div_mod v 256 ltac:(lia)) as E0.
  pose proof (Z.div_mod (v / 256) 256 ltac:(lia)) as E1.
  pose proof (Z.div_mod (v / 256 / 256) 256 ltac:(lia)) as E2.
  generalize dependent (v / 256 / 256 / 256)%Z.
  generalize dependent (v / 256 / 256)%Z.
  generalize dependent (v / 256)%Z.
  generalize (v mod 256)%Z. intros. subst. lia.
Qed.

Lemma pack_u32_in_range (v : Z) :
  (0 <= v < 2 ^ 32)%Z ->
  pack_u32 v = Some [byte_of_Z (Z.shiftr v 24); byte_of_Z (Z.shiftr v 16);
                     byte_of_Z (Z.shiftr v 8); byte_of_Z v].
Proof.
  intros Hv. unfold pack_u32.
  by rewrite (proj2 (Z.leb_le 0 v)), (proj2 (Z.ltb_lt v (2 ^ 32))) by lia.
Qed.

Lemma pack_u32_none (v : Z) : pack_u32 v = None <-> ~ (0 <= v < 2 ^ 32)%Z.
Proof.
  unfold pack_u32. destruct (Z.leb_spec 0 v), (Z.ltb_spec v (2 ^ 32)); simpl;
    split; intros Hx; try done; lia.
Qed.

Lemma pack_u32_range (v : Z) x : pack_u32 v = Some x -> (0 <= v < 2 ^ 32)%Z.
Proof.
  unfold pack_u32. destruct (Z.leb_spec 0 v), (Z.ltb_spec v (2 ^ 32)); simpl;
    try discriminate; lia.
Qed.

Lemma pack_II_some (a b : Z) hdr :
  pack_II a b = Some hdr ->
  length hdr = 8%nat /\ unpack_II hdr = Some (a, b) /\
  (0 <= a < 2 ^ 32)%Z /\ (0 <= b < 2 ^ 32)%Z.
Proof.
  unfold pack_II.
  destruct (pack_u32 a) as [x|] eqn:Ea; [|discriminate].
  destruct (pack_u32 b) as [y|] eqn:Eb; [|discriminate].
  intros H. injection H as <-.
  pose proof (pack_u32_range _ _ Ea) as Ra.
  pose proof (pack_u32_range _ _ Eb) as Rb.
  rewrite pack_u32_in_range in Ea, Eb by done.
  injection Ea as <-. injection Eb as <-.
  split; [done|]. split; [|done].
  unfold unpack_II. cbn [length app Nat.eqb firstn skipn]. by rewrite !be_value_u32.
Qed.

Lemma pack_II_none (a b : Z) :
  pack_II a b = None <-> ~ ((0 <= a < 2 ^ 32)%Z /\ (0 <= b < 2 ^ 32)%Z).
Proof.
  unfold pack_II. split.
  - intros H [Ra Rb]. rewrite !pack_u32_in_range in H by done. discriminate.
  - intros H. destruct (pack_u32 a) eqn:Ea, (pack_u32 b) eqn:Eb; try done.
    exfalso. apply H. split; by eapply pack_u32_range.
Qed.

Lemma header_firstn (k : Z) hdr b :
  pack_II Tahoe.magic k = Some hdr -> header k = hdr /\ firstn 8 (hdr ++ b) = hdr.
Proof.
  intros H. unfold header. rewrite H. split; [done|].
  destruct (pack_II_some _ _ _ H) as [Hl _].
  rewrite firstn_app, Hl, Nat.sub_diag, firstn_O, app_nil_r.
  by rewrite firstn_all2 by lia.
Qed.

(** X1: [struct.pack(">II", a, b)] and [struct.unpack(">II", ...)] are
    inverse: for two 32-bit unsigned values, packing yields 8 bytes which
    unpack to the same pair. *)
Theorem pack_unpack_roundtrip (a b : Z) :
  (0 <= a < 2 ^ 32)%Z -> (0 <= b < 2 ^ 32)%Z ->
  exists p, pack_II a b = Some p /\ length p = 8%nat /\ unpack_II p = Some (a, b).
Proof.
  intros Ra Rb.
  destruct (pack_II a b) as [p|] eqn:E.
  - exists p. destruct (pack_II_some _ _ _ E) as (Hl & Hu & _). done.
  - apply pack_II_none in E. tauto.
Qed.

Lemma pack_unpack_roundtrip_witness :
  exists p, pack_II Tahoe.magic 7 = Some p /\ length p = 8%nat /\
            unpack_II p = Some (Tahoe.magic, 7%Z).
Proof. apply pack_unpack_roundtrip; vm_compute; split; congruence. Defined.

(** *** More facts about ranges, sorted keys and dictionaries *)

Lemma zrange_succ (n : Z) : (0 <= n)%Z -> zrange (n + 1) = zrange n ++ [n].
Proof.
  intros Hn. unfold zrange.
  rewrite Z2Nat.inj_add by lia. rewrite Nat.add_1_r, seq_S, map_app. simpl.
  by rewrite Z2Nat.id by lia.
Qed.

Lemma sorted_snoc (l : list Z) (x : Z) :
  Sorted.StronglySorted Z.lt l -> (forall y, In y l -> (y < x)%Z) ->
  Sorted.StronglySorted Z.lt (l ++ [x]).
Proof.
  induction l as [|y l IH]; simpl; intros Hs Hlt.
  - repeat constructor.
  - inversion Hs as [|? ? Hs' Hall]; subst. constructor.
    + apply IH; [done|]. intros z Hz. apply Hlt. by right.
    + apply Forall_app. split; [done|]. constructor; [|constructor].
      apply Hlt. by left.
Qed.

Lemma dict_del_in {V} (a k : Z) (v : V) d : In (k, v) (dict_del a d) -> In (k, v) d.
Proof.
  induction d as [|[k' v'] d IH]; simpl; [done|].
  destruct (Z.eqb a k'); [by right|]. intros [H|H]; [by left | right; auto].
Qed.

Lemma dict_del_sorted {V} (a : Z) (d : list (Z * V)) :
  Sorted.StronglySorted Z.lt (map fst d) ->
  Sorted.StronglySorted Z.lt (map fst (dict_del a d)).
Proof.
  induction d as [|[k' v'] d IH]; simpl; intros Hs; [done|].
  inversion Hs as [|? ? Hs' Hall]; subst.
  destruct (Z.eqb a k'); [done|]. simpl. constructor; [by apply IH|].
  apply List.Forall_forall. intros y Hy. apply dict_del_keys_sub in Hy.
  by eapply List.Forall_forall in Hall.
Qed.


Lemma dict_get_of_in {V} (k : Z) (v : V) d :
  List.NoDup (map fst d) -> In (k, v) d -> dict_get k d = Some v.
Proof.
  induction d as [|[k' v'] d IH]; simpl; [done|].
  intros Hnd. apply List.NoDup_cons_iff in Hnd as [Hni Hnd].
  destruct (Z.eqb_spec k k') as [->|Hne]; intros [H|H].
  - by injection H as <-.
  - exfalso. apply Hni. by apply (in_map fst) in H.
  - congruence.
  - auto.
Qed.

Lemma window_full_empty (c : Q) : 1 <= c -> Tahoe.window_full (qlen (@nil (Z * bytes))) c = false.
Proof. intros Hc. apply window_full_false_iff. change (qlen (@nil (Z * bytes))) with (0 # 1). lra. Qed.

(** *** Control invariant of the Tahoe loop *)

Module TahoeCtrl.
Import Tahoe.

Lemma step_next_cases ds now rx st st' :
  step ds now rx st = Next st' ->
  loop_cond st = true /\
  ((state st = 0%Z /\ state0 ds st = Next st') \/
   (state st = 1%Z /\ state1 now st = Next st') \/
   (state st = 2%Z /\ state2 now rx st = Next st') \/
   (state st = 3%Z /\ state3 now st = Next st')).
Proof.
  intros H. split; [|by apply TahoeInv.step_cases in H].
  unfold step in H. by destruct (loop_cond st).
Qed.

Lemma ctrl_init n t s : Tahoe_ctrl_inv (init n t s).
Proof.
  unfold Tahoe_ctrl_inv; simpl. repeat split; first [done | by left | lia | constructor].
Qed.

Lemma ctrl_state0 ds st st' :
  Tahoe_ctrl_inv st -> state st = 0%Z -> state0 ds st = Next st' -> Tahoe_ctrl_inv st'.
Proof.
  intros (Hs & Hst & Hb & H2 & H3 & Hsort & Hq & Hp) H0 H.
  rewrite H0 in Hq. simpl in Hq. rewrite app_nil_r in Hq.
  unfold state0 in H. destruct (ds (seqno st)) as [b|] eqn:Eb;
    injection H as <-; unfold Tahoe_ctrl_inv; simpl.
  - try rewrite bool_decide_eq_true_2 by by eexists.
    split_and!; try done; try discriminate.
    + by right; left.
    + by rewrite List.filter_app, map_app, Hq.
  - try rewrite bool_decide_eq_false_2 by (intros [? ?]; discriminate).
    split_and!; try done; try discriminate.
    + by right; right; left.
    + intros _. by right.
    + rewrite List.filter_app, map_app, Hq. simpl. by rewrite !app_nil_r.
Qed.

Lemma ctrl_state1 now st st' :
  Tahoe_inv st -> Tahoe_ctrl_inv st -> state st = 1%Z -> state1 now st = Next st' ->
  Tahoe_ctrl_inv st'.
Proof.
  intros (_ & Hlt & _) (Hs & Hst & Hb & H2 & H3 & Hsort & Hq & Hp) H1 H.
  rewrite H1 in Hq. simpl in Hq.
  unfold state1 in H.
  destruct (pack_II magic (seqno st)) as [hdr|] eqn:Eh; [|discriminate].
  destruct (body st) as [b|]; [|discriminate].
  injection H as <-.
  assert (Hfresh : ~ In (seqno st) (map fst (outstanding st))).
  { intros Hin. specialize (Hlt _ Hin). lia. }
  unfold Tahoe_ctrl_inv; simpl. rewrite (dict_set_fresh _ _ _ Hfresh).
  split; [lia|].
  split; [destruct (window_full _ _); [by right; right; left | by left]|].
  split; [destruct (window_full _ _); discriminate|].
  split; [intros _; left; by destruct (outstanding st)|].
  split; [destruct (window_full _ _); discriminate|].
  split; [rewrite map_app; apply sorted_snoc; [done|]; intros y Hy; by apply Hlt|].
  split.
  - rewrite Hq, zrange_succ by done.
    destruct (window_full _ _); simpl; by rewrite app_nil_r.
  - intros k p [Hin|[Hin|[]]]%in_app_or.
    + destruct (Hp _ _ Hin) as [Hs' Hh]. split; [|done].
      apply in_or_app. by left.
    + injection Hin as <- <-. split; [apply in_or_app; right; by left|].
      by exists hdr, b.
Qed.

Lemma ctrl_on_ack now a st st' :
  Tahoe_inv st -> Tahoe_ctrl_inv st -> state st = 2%Z -> on_ack now a st = Next st' ->
  Tahoe_ctrl_inv st'.
Proof.
  intros (_ & _ & _ & _ & Hcw & _) (Hs & Hst & Hb & H2 & H3 & Hsort & Hq & Hp) H2' H.
  rewrite H2' in Hq. simpl in Hq.
  unfold on_ack in H.
  destruct (send_times st !! a) as [ts|]; [|discriminate].
  assert (Hp' : forall k p, In (k, p) (dict_del a (outstanding st)) ->
     In p (sent st) /\ exists hdr b, pack_II magic k = Some hdr /\ p = hdr ++ b).
  { intros k p Hin. apply Hp. by eapply dict_del_in. }
  destruct (Z.eqb a (desired_ackno st)); injection H as <-;
    unfold Tahoe_ctrl_inv; simpl.
  - split_and!; try done; try discriminate.
    + by left.
    + by apply dict_del_sorted.
  - split; [done|].
    destruct (window_full (qlen (dict_del a (outstanding st))) (cwnd st)) eqn:Ew.
    + split_and!; try done; try discriminate.
      * by right; right; left.
      * intros _. left. intros He. rewrite He in Ew.
        by rewrite window_full_empty in Ew.
      * by apply dict_del_sorted.
    + split_and!; try done; try discriminate.
      * by left.
      * by apply dict_del_sorted.
Qed.

Lemma ctrl_state2 now rx st st' :
  Tahoe_inv st -> Tahoe_ctrl_inv st -> state st = 2%Z -> loop_cond st = true ->
  state2 now rx st = Next st' -> Tahoe_ctrl_inv st'.
Proof.
  intros Hi Hc Hs2 Hl H. unfold state2 in H.
  destruct rx as [d|].
  - destruct (unpack_II (firstn recv_bufsize d)) as [[m a]|]; [|discriminate].
    by apply (ctrl_on_ack now a st).
  - injection H as <-.
    destruct Hc as (Hs & Hst & Hb & H2 & H3 & Hsort & Hq & Hp).
    rewrite Hs2 in Hq. simpl in Hq.
    unfold Tahoe_ctrl_inv; simpl. split_and!; try done; try discriminate.
    + by right; right; right.
    + intros _. destruct (H2 Hs2) as [Hne|Hf]; [done|].
      unfold loop_cond in Hl. rewrite Hf in Hl. simpl in Hl.
      intros He. rewrite He in Hl. discriminate.
Qed.

Lemma ctrl_state3 now st st' :
  Tahoe_ctrl_inv st -> state st = 3%Z -> state3 now st = Next st' -> Tahoe_ctrl_inv st'.
Proof.
  intros (Hs & Hst & Hb & H2 & H3 & Hsort & Hq & Hp) Hs3 H.
  rewrite Hs3 in Hq. simpl in Hq.
  unfold state3 in H.
  destruct (dict_get (desired_ackno st) (outstanding st)) as [pkt|]; [|discriminate].
  injection H as <-. unfold Tahoe_ctrl_inv; simpl.
  split_and!; try done; try discriminate.
  - by right; right; left.
  - intros _. left. by apply H3.
  - intros k p Hin. destruct (Hp _ _ Hin) as [Hin' Hh]. split; [|done].
    apply in_or_app. by left.
Qed.

Lemma ctrl_step ds now rx st st' :
  Tahoe_inv st -> Tahoe_ctrl_inv st -> step ds now rx st = Next st' -> Tahoe_ctrl_inv st'.
Proof.
  intros Hi Hc H.
  destruct (step_next_cases _ _ _ _ _ H) as
    [Hl [[Hs H']|[[Hs H']|[[Hs H']|[Hs H']]]]].
  - by apply (ctrl_state0 ds st).
  - by apply (ctrl_state1 now st).
  - by apply (ctrl_state2 now rx st).
  - by apply (ctrl_state3 now st).
Qed.

Lemma ctrl_reachable n t s st : reachable n t s st -> Tahoe_ctrl_inv st.
Proof.
  induction 1 as [|ds now rx st st' Hr IH Hs].
  - apply ctrl_init.
  - apply (ctrl_step ds now rx st); [|done|done].
    by apply (TahoeInv.inv_reachable n t s).
Qed.

End TahoeCtrl.

(** *** The Tahoe loop: ledger, crashes, termination, data source *)





(** X4: a reachable Tahoe loop only ends through its [while] condition: it
    stops exactly when no data is left and nothing is outstanding, and the
    [else: break] branch is never taken. *)
Theorem tahoe_done_only_when_finished n t s st ds now rx st' :
  Tahoe.reachable n t s st -> Tahoe.step ds now rx st = Done st' ->
  st' = st /\ Tahoe.have_more_data st = false /\ Tahoe.outstanding st = [].
Proof.
  intros Hr H.
  destruct (TahoeCtrl.ctrl_reachable _ _ _ _ Hr) as (_ & Hst & _).
  unfold Tahoe.step in H. destruct (Tahoe.loop_cond st) eqn:Hl.
  - exfalso.
    destruct Hst as [E|[E|[E|E]]]; rewrite E in H; unfold Tahoe.state0, Tahoe.state1,
      Tahoe.state2, Tahoe.on_ack, Tahoe.state3 in H; repeat case_match; discriminate.
  - injection H as <-. split; [done|].
    unfold Tahoe.loop_cond in Hl. apply orb_false_iff in Hl as [Hh Hn].
    split; [done|]. destruct (Tahoe.outstanding st); [done|discriminate].
Qed.

Lemma tahoe_done_only_when_finished_witness :
  let st := fuel_state (run tahoe (chunks 1) echo_server 4 (Tahoe.init 8 1 0) [] 0)
              (Tahoe.init 8 1 0) in
  st = st /\ Tahoe.have_more_data st = false /\ Tahoe.outstanding st = [].
Proof.
  apply (tahoe_done_only_when_finished 8 1 0 _ (chunks 1) 4 None).
  - apply (TahoeInv.exec_reachable 8 1 0 (chunks 1)
             [(0, None); (1, None); (2, Some (header 0)); (3, None)] (Tahoe.init 8 1 0));
      [constructor | vm_compute; reflexivity].
  - vm_compute. reflexivity.
Defined.

(** X5: the data source has returned data exactly for the sequence numbers
    [0, 1, ..., seqno - 1], in this order, plus [seqno] itself while its
    packet is waiting to be sent (state 1): new segments are numbered
    consecutively from 0 and a retransmission never consumes one. *)
Theorem tahoe_source_sequencing n t s st :
  Tahoe.reachable n t s st ->
  map fst (List.filter snd (Tahoe.queries st)) =
    zrange (Tahoe.seqno st) ++
    (if Z.eqb (Tahoe.state st) 1 then [Tahoe.seqno st] else []).
Proof.
  intros Hr. by destruct (TahoeCtrl.ctrl_reachable _ _ _ _ Hr) as (_ & _ & _ & _ & _ & _ & Hq & _).
Qed.

Lemma tahoe_source_sequencing_witness :
  map fst (List.filter snd (Tahoe.queries ex_waiting)) =
    zrange (Tahoe.seqno ex_waiting) ++
    (if Z.eqb (Tahoe.state ex_waiting) 1 then [Tahoe.seqno ex_waiting] else []).
Proof. apply (tahoe_source_sequencing 8 1 0). apply ex_waiting_reachable. Defined.

(** X6: every ledger entry [outstanding[k]] is a packet that was actually
    sent, whose header decodes to [(0xBAADCAFE, k)], and it is what
    [outstanding[k]] returns: a retransmission resends the original bytes of
    segment [k]. *)
Theorem tahoe_ledger_packets n t s st k p :
  Tahoe.reachable n t s st -> In (k, p) (Tahoe.outstanding st) ->
  In p (Tahoe.sent st) /\ unpack_II (firstn 8 p) = Some (Tahoe.magic, k) /\
  dict_get k (Tahoe.outstanding st) = Some p.
Proof.
  intros Hr Hin.
  destruct (TahoeInv.inv_reachable _ _ _ _ Hr) as (Hnd & _).
  destruct (TahoeCtrl.ctrl_reachable _ _ _ _ Hr) as (_ & _ & _ & _ & _ & _ & _ & Hp).
  destruct (Hp _ _ Hin) as [Hs (hdr & b & Eh & ->)].
  split; [done|]. split; [|by apply dict_get_of_in].
  destruct (header_firstn _ _ b Eh) as [_ ->].
  by destruct (pack_II_some _ _ _ Eh) as (_ & Hu & _).
Qed.

Lemma tahoe_ledger_packets_witness :
  In (header 1 ++ [byte_of_Z 1]) (Tahoe.sent ex_waiting) /\
  unpack_II (firstn 8 (header 1 ++ [byte_of_Z 1])) = Some (Tahoe.magic, 1%Z) /\
  dict_get 1 (Tahoe.outstanding ex_waiting) = Some (header 1 ++ [byte_of_Z 1]).
Proof.
  apply (tahoe_ledger_packets 8 1 0); [apply ex_waiting_reachable | vm_compute; tauto].
Defined.

(** *** Loss and the timer *)

Lemma exec_cons ds now rx ins st :
  exec ds ((now, rx) :: ins) st =
  match Tahoe.step ds now rx st with Next st' => exec ds ins st' | o => o end.
Proof. reflexivity. Qed.

Lemma timeout_retransmit_cycle ds c st pkt :
  Tahoe.state st = 2%Z -> Tahoe.loop_cond st = true ->
  dict_get (Tahoe.desired_ackno st) (Tahoe.outstanding st) = Some pkt ->
  exists st2, exec ds [(c, None); (c, None)] st = Next st2 /\
    Tahoe.timeout st2 = Tahoe.timeout st * 2 /\ Tahoe.cwnd st2 = 1 /\
    Tahoe.sent st2 = Tahoe.sent st ++ [pkt] /\
    Tahoe.outstanding st2 = Tahoe.outstanding st /\
    Tahoe.have_more_data st2 = Tahoe.have_more_data st /\
    Tahoe.seqno st2 = Tahoe.seqno st /\
    Tahoe.desired_ackno st2 = Tahoe.desired_ackno st /\ Tahoe.state st2 = 2%Z.
Proof.
  intros Hs Hl Hg.
  assert (E1 : Tahoe.step ds c None st = Next (Tahoe.on_timeout st)).
  { unfold Tahoe.step. by rewrite Hl, Hs. }
  assert (E2 : Tahoe.step ds c None (Tahoe.on_timeout st) =
               Tahoe.state3 c (Tahoe.on_timeout st)).
  { unfold Tahoe.step.
    replace (Tahoe.loop_cond (Tahoe.on_timeout st)) with true by (symmetry; exact Hl).
    reflexivity. }
  rewrite exec_cons, E1. cbv beta iota. rewrite exec_cons, E2. unfold Tahoe.state3.
  cbn [Tahoe.desired_ackno Tahoe.outstanding Tahoe.on_timeout]. rewrite Hg.
  eexists. split; [reflexivity|]. simpl. by split_and!.
Qed.

(** X7: while the ACK of the oldest outstanding segment keeps failing to
    arrive, each timeout doubles [timeout], resets [cwnd] to 1 and resends
    the same cached packet [outstanding[desired_ackno]]; after [K] such
    rounds [timeout] has grown by [2^K] and the ledger, [seqno] and
    [desired_ackno] are unchanged. *)
Theorem tahoe_repeated_timeouts ds clocks st pkt :
  Tahoe.state st = 2%Z -> Tahoe.loop_cond st = true ->
  dict_get (Tahoe.desired_ackno st) (Tahoe.outstanding st) = Some pkt ->
  exists st', exec ds (loss_inputs clocks) st = Next st' /\
    Tahoe.timeout st' == Tahoe.timeout st * inject_Z (2 ^ Z.of_nat (length clocks)) /\
    (clocks <> [] -> Tahoe.cwnd st' = 1) /\
    Tahoe.sent st' = Tahoe.sent st ++ repeat pkt (length clocks) /\
    Tahoe.outstanding st' = Tahoe.outstanding st /\
    Tahoe.seqno st' = Tahoe.seqno st /\
    Tahoe.desired_ackno st' = Tahoe.desired_ackno st /\ Tahoe.state st' = 2%Z.
Proof.
  revert st. induction clocks as [|c cs IH]; intros st Hs Hl Hg.
  - exists st. split; [done|]. split.
    { change (inject_Z (2 ^ Z.of_nat (length (@nil Q)))) with 1. ring. }
    simpl. split_and!; try done. by rewrite app_nil_r.
  - destruct (timeout_retransmit_cycle ds c st pkt Hs Hl Hg)
      as (st2 & E2 & Ht2 & Hc2 & Hsent2 & Ho2 & Hh2 & Hq2 & Hd2 & Hs2).
    assert (Hl2 : Tahoe.loop_cond st2 = true).
    { unfold Tahoe.loop_cond in *. by rewrite Ho2, Hh2. }
    assert (Hg2 : dict_get (Tahoe.desired_ackno st2) (Tahoe.outstanding st2) = Some pkt)
      by by rewrite Ho2, Hd2.
    destruct (IH st2 Hs2 Hl2 Hg2)
      as (st' & E' & Ht' & Hc' & Hsent' & Ho' & Hq' & Hd' & Hs').
    exists st'.
    assert (Hx : exec ds (loss_inputs (c :: cs)) st = exec ds (loss_inputs cs) st2).
    { change (loss_inputs (c :: cs)) with ((c, None) :: (c, None) :: loss_inputs cs).
      rewrite exec_cons. rewrite exec_cons in E2.
      destruct (Tahoe.step ds c None st) as [s1| |]; try discriminate.
      rewrite exec_cons. rewrite exec_cons in E2.
      destruct (Tahoe.step ds c None s1) as [s2| |]; try discriminate.
      simpl in E2. injection E2 as ->. done. }
    rewrite Hx. split; [done|].
    split.
    { rewrite Ht', Ht2. cbn [length]. rewrite Nat2Z.inj_succ, Z.pow_succ_r by lia.
      rewrite inject_Z_mult. ring. }
    split.
    { intros _. destruct cs as [|c' cs']; [|by apply Hc'].
      simpl in E'. injection E' as <-. done. }
    split; [|split_and!; congruence].
    rewrite Hsent', Hsent2. simpl. by rewrite <- app_assoc.
Qed.

Lemma tahoe_repeated_timeouts_witness :
  exists st', exec (chunks 2) (loss_inputs [3; 5]) ex_sent0 = Next st' /\
    Tahoe.timeout st' == Tahoe.timeout ex_sent0 * inject_Z (2 ^ Z.of_nat (length [3; 5])) /\
    ([3; 5] <> [] -> Tahoe.cwnd st' = 1) /\
    Tahoe.sent st' = Tahoe.sent ex_sent0 ++ repeat (header 0 ++ [byte_of_Z 0]) (length [3; 5]) /\
    Tahoe.outstanding st' = Tahoe.outstanding ex_sent0 /\
    Tahoe.seqno st' = Tahoe.seqno ex_sent0 /\
    Tahoe.desired_ackno st' = Tahoe.desired_ackno ex_sent0 /\ Tahoe.state st' = 2%Z.
Proof. apply tahoe_repeated_timeouts; vm_compute; reflexivity. Defined.

(** Runs out of fuel end in a state that any step-preserved property of
    clocked states holds of. *)
Section RunInv.
Variable M : sender.
Variable P : Q -> s_state M -> Prop.
Hypothesis P_step : forall ds c now rx s s',
  P c s -> c <= now -> s_step M ds now rx s = Next s' -> P now s'.

Lemma run_fuel_inv ds server f s q c clock y :
  P c s -> c <= clock -> run M ds server f s q clock = ROutOfFuel y ->
  exists c', P c' y.
Proof.
  revert s q c clock. induction f as [|f IH]; simpl; intros s q c clock Hp Hc H.
  - injection H as <-. by exists c.
  - destruct (s_step M ds clock _ s) as [s'|s'|e] eqn:Hs; try discriminate.
    eapply (IH s' _ clock (clock + 1)); [|lra|exact H].
    exact (P_step ds c clock _ s s' Hp Hc Hs).
Qed.
End RunInv.






(** *** [client_saw.py] *)

Lemma zrange_length (n : Z) : length (zrange n) = Z.to_nat n.
Proof. unfold zrange. by rewrite length_map, length_seq. Qed.

Lemma saw_inv_init s : Saw_inv (Saw.init s).
Proof.
  unfold Saw_inv, ended_at; simpl. split_and!; first [done | lra | lia | by left].
Qed.

Lemma saw_inv_step ds now rx st st' :
  Saw_inv st -> Saw.step ds now rx st = Next st' -> Saw_inv st'.
Proof.
  intros (Hs & Hst & Hb & Hsent & Hrows & Hend) H.
  unfold Saw.step in H. destruct (Saw.have_more_data st) eqn:Hh; [|discriminate].
  destruct Hst as [E|[E|E]]; rewrite E in H, Hsent; cbn [Z.eqb Pos.eqb] in Hsent.
  - destruct (ds (Saw.seqno st)) as [b|]; injection H as <-;
      unfold Saw_inv, ended_at; simpl.
    + split_and!; try done; try discriminate. by right; left.
    + split_and!; try done; try discriminate.
      * by left.
      * intros _. split; [done|]. eexists. f_equal.
  - destruct (pack_II Saw.magic (Saw.seqno st)) as [hdr|] eqn:Ep;
      [|discriminate].
    destruct (Saw.body st) as [b|]; [|discriminate].
    injection H as <-. unfold Saw_inv, ended_at; simpl.
    change Saw.magic with Tahoe.magic in Ep.
    destruct (header_firstn _ _ b Ep) as [Hh8 Hf8].
    split_and!; try done; try discriminate.
    + by right; right.
    + unfold bytes in *. rewrite map_app, Hsent, Z.add_0_r, zrange_succ, map_app by done.
      f_equal. cbn [map]. f_equal. congruence.
  - destruct rx as [d|];
      [|injection H as <-; unfold Saw_inv; rewrite E, Hh; cbn [Z.eqb Pos.eqb];
        split_and!; first [done | discriminate | by right; right]].
    destruct (unpack_II (firstn recv_bufsize d)) as [[m a]|]; [|discriminate].
    injection H as <-. unfold Saw_inv, ended_at; simpl.
    split_and!; try done; try discriminate; try lia.
    + by rewrite Z.add_0_r.
    + by rewrite map_app, Hrows, zrange_succ.
Qed.

Lemma saw_inv_reachable s st : saw_reachable s st -> Saw_inv st.
Proof.
  induction 1 as [|ds now rx st st' Hr IH Hs]; [apply saw_inv_init|].
  by apply (saw_inv_step ds now rx st).
Qed.

Lemma run_saw_reachable s ds server f q clock y :
  run saw ds server f (Saw.init s) q clock = ROutOfFuel y -> saw_reachable s y.
Proof.
  intros H.
  destruct (run_fuel_inv saw (fun _ st => saw_reachable s st)
              (fun ds c now rx st st' Hr _ Hs => sreach_step s ds now rx st st' Hr Hs)
              ds server f (Saw.init s) q clock clock y) as [_ Hy];
    [constructor | lra | done | done].
Qed.

(** X9: stop-and-wait sends data packets with sequence numbers 0, 1, 2, ...
    in order, each exactly once, writes one trace row per received ACK
    carrying the sequence number of the packet it answers, and never has more
    than one packet unacknowledged: only in state 2 is there one more packet
    sent than ACK rows. *)
Theorem saw_in_order_one_outstanding s st :
  saw_reachable s st ->
  map (firstn 8) (Saw.sent st) =
    map header (zrange (Saw.seqno st + if Z.eqb (Saw.state st) 2 then 1 else 0)) /\
  map row_seqno (Saw.trace_rows st) = zrange (Saw.seqno st) /\
  length (Saw.sent st) =
    (length (Saw.trace_rows st) + if Z.eqb (Saw.state st) 2 then 1 else 0)%nat.
Proof.
  intros Hr. destruct (saw_inv_reachable _ _ Hr) as (Hs & _ & _ & Hsent & Hrows & _).
  split_and!; [done|done|].
  apply (f_equal length) in Hsent, Hrows.
  rewrite !length_map, zrange_length in Hsent. rewrite length_map, zrange_length in Hrows.
  unfold bytes in *. rewrite Hsent, Hrows.
  destruct (Z.eqb _ _); [|by rewrite Z.add_0_r, Nat.add_0_r].
  rewrite Z2Nat.inj_add by lia. done.
Qed.

Lemma saw_in_order_one_outstanding_witness :
  map (firstn 8) (Saw.sent ex_saw_waiting) =
    map header (zrange (Saw.seqno ex_saw_waiting +
                        if Z.eqb (Saw.state ex_saw_waiting) 2 then 1 else 0)) /\
  map row_seqno (Saw.trace_rows ex_saw_waiting) = zrange (Saw.seqno ex_saw_waiting) /\
  length (Saw.sent ex_saw_waiting) =
    (length (Saw.trace_rows ex_saw_waiting) +
     if Z.eqb (Saw.state ex_saw_waiting) 2 then 1 else 0)%nat.
Proof.
  apply (saw_in_order_one_outstanding 0).
  apply (run_saw_reachable 0 (chunks 2) silent_server 2 [] 0). vm_compute. reflexivity.
Defined.

(** X10: stop-and-wait only stops once the data source returned [None] for
    the current [seqno], in state 0, when every packet sent has had its ACK
    logged; its [else: break] branch is never taken. *)
Theorem saw_done_only_when_finished s st ds now rx st' :
  saw_reachable s st -> Saw.step ds now rx st = Done st' ->
  st' = st /\ Saw.have_more_data st = false /\ Saw.state st = 0%Z /\
  (exists qs, Saw.queries st = qs ++ [(Saw.seqno st, false)]) /\
  length (Saw.sent st) = length (Saw.trace_rows st).
Proof.
  intros Hr H.
  destruct (saw_inv_reachable _ _ Hr) as (Hs & Hst & _ & Hsent & Hrows & Hend).
  unfold Saw.step in H. destruct (Saw.have_more_data st) eqn:Hh.
  - exfalso. destruct Hst as [E|[E|E]]; rewrite E in H; repeat case_match; discriminate.
  - injection H as <-. destruct (Hend eq_refl) as [E Hq].
    split_and!; try done.
    apply (f_equal length) in Hsent, Hrows.
    rewrite !length_map in Hsent, Hrows. unfold bytes in *. rewrite Hsent, Hrows, E. simpl.
    by rewrite length_map, Z.add_0_r.
Qed.

Lemma saw_done_only_when_finished_witness :
  ex_saw_ended = ex_saw_ended /\ Saw.have_more_data ex_saw_ended = false /\
  Saw.state ex_saw_ended = 0%Z /\
  (exists qs, Saw.queries ex_saw_ended = qs ++ [(Saw.seqno ex_saw_ended, false)]) /\
  length (Saw.sent ex_saw_ended) = length (Saw.trace_rows ex_saw_ended).
Proof.
  apply (saw_done_only_when_finished 0 ex_saw_ended (chunks 1) 5 None).
  - apply (run_saw_reachable 0 (chunks 1) echo_server 4 [] 0). vm_compute. reflexivity.
  - vm_compute. reflexivity.
Defined.



(** *** [client_burst1.py] *)

Ltac burst_close Hbn :=
  first [ done | discriminate | lia
        | by left | by right; left | by right; right
        | intros _; split; [by eexists | congruence]
        | intros _; apply Hbn; congruence
        | intros _; split; [done | eexists; f_equal]
        | intros ?; congruence ].

Lemma burst_inv_init n0 t0 s : Burst_inv n0 t0 (Burst.init n0 t0 s).
Proof. unfold Burst_inv, ended_at; simpl. split_and!; first [done | lia | by left]. Qed.

Lemma burst_inv_step n0 t0 ds now rx st st' :
  Burst_inv n0 t0 st -> Burst.step ds now rx st = Next st' -> Burst_inv n0 t0 st'.
Proof.
  intros (Hn & Ht & Hs & Hst & Hbn & Hmod & Hsent & Hrows & Hack & Hend) H.
  unfold Burst.step in H. destruct (Burst.have_more_data st) eqn:Hh; [|discriminate].
  destruct Hst as [E|[E|E]]; rewrite E in H.
  - destruct (ds (Burst.seqno st)) as [b|].
    + destruct (Z.eqb_spec (Burst.n st) 0) as [Hn0|Hn0]; [discriminate|].
      destruct (Z.eqb_spec (Burst.seqno st mod Burst.n st) 0) as [Hm|Hm];
        injection H as <-; unfold Burst_inv, ended_at; simpl;
        split_and!; burst_close Hbn.
    + injection H as <-. unfold Burst_inv, ended_at; simpl.
      split_and!; burst_close Hbn.
  - injection H as <-. unfold Burst_inv, ended_at; simpl.
    split_and!; burst_close Hbn.
  - destruct (pack_II Burst.magic (Burst.seqno st)) as [hdr|] eqn:Ep; [|discriminate].
    destruct (Burst.body st) as [b|]; [|discriminate].
    injection H as <-. unfold Burst_inv, ended_at; simpl.
    change Burst.magic with Tahoe.magic in Ep.
    destruct (header_firstn _ _ b Ep) as [Hh8 Hf8].
    split_and!; try burst_close Hbn.
    + unfold bytes in *. rewrite map_app, Hsent, zrange_succ, map_app by done.
      f_equal. cbn [map]. f_equal. congruence.
    + by rewrite map_app, Hrows, zrange_succ.
    + intros r [Hr|[<-|[]]]%in_app_or; [by apply Hack | done].
Qed.

Lemma burst_inv_reachable n0 t0 s st : burst_reachable n0 t0 s st -> Burst_inv n0 t0 st.
Proof.
  induction 1 as [|ds now rx st st' Hr IH Hs]; [apply burst_inv_init|].
  by apply (burst_inv_step n0 t0 ds now rx st).
Qed.

Lemma run_burst_reachable n0 t0 s ds server f q clock y :
  run burst ds server f (Burst.init n0 t0 s) q clock = ROutOfFuel y ->
  burst_reachable n0 t0 s y.
Proof.
  intros H.
  destruct (run_fuel_inv burst (fun _ st => burst_reachable n0 t0 s st)
              (fun ds c now rx st st' Hr _ Hs => breach_step n0 t0 s ds now rx st st' Hr Hs)
              ds server f (Burst.init n0 t0 s) q clock clock y) as [_ Hy];
    [constructor | lra | done | done].
Qed.

(** X12: the burst sender sends data packets 0, 1, 2, ... in order, each
    exactly once, and logs each with a trace row carrying its sequence
    number and zero ACK fields (no ACK is ever read); the pause
    [time.sleep(t)] (state 1) only happens before a packet whose sequence
    number is a multiple of [n]. *)
Theorem burst_in_order_no_acks n0 t0 s st :
  burst_reachable n0 t0 s st ->
  map (firstn 8) (Burst.sent st) = map header (zrange (Burst.seqno st)) /\
  map row_seqno (Burst.trace_rows st) = zrange (Burst.seqno st) /\
  (forall r, In r (Burst.trace_rows st) -> row_ackno r = 0%Z /\ row_acked r = 0) /\
  (Burst.state st = 1%Z -> n0 <> 0%Z /\ Z.modulo (Burst.seqno st) n0 = 0%Z).
Proof.
  intros Hr.
  destruct (burst_inv_reachable _ _ _ _ Hr)
    as (_ & _ & _ & _ & Hbn & Hmod & Hsent & Hrows & Hack & _).
  split_and!; try done. intros E. split; [|by apply Hmod].
  apply Hbn. congruence.
Qed.

Lemma burst_in_order_no_acks_witness :
  map (firstn 8) (Burst.sent ex_burst_ended) = map header (zrange (Burst.seqno ex_burst_ended)) /\
  map row_seqno (Burst.trace_rows ex_burst_ended) = zrange (Burst.seqno ex_burst_ended) /\
  (forall r, In r (Burst.trace_rows ex_burst_ended) -> row_ackno r = 0%Z /\ row_acked r = 0) /\
  (Burst.state ex_burst_ended = 1%Z ->
     2%Z <> 0%Z /\ Z.modulo (Burst.seqno ex_burst_ended) 2 = 0%Z).
Proof.
  apply (burst_in_order_no_acks 2 1 0).
  apply (run_burst_reachable 2 1 0 (chunks 3) silent_server 9 [] 0). vm_compute. reflexivity.
Defined.

(** X13: the burst sender only stops once the data source returned [None]
    for the current [seqno], after sending exactly [seqno] packets; its
    [else: break] branch is never taken. *)
Theorem burst_done_only_when_finished n0 t0 s st ds now rx st' :
  burst_reachable n0 t0 s st -> Burst.step ds now rx st = Done st' ->
  st' = st /\ Burst.have_more_data st = false /\ Burst.state st = 0%Z /\
  (exists qs, Burst.queries st = qs ++ [(Burst.seqno st, false)]) /\
  length (Burst.sent st) = Z.to_nat (Burst.seqno st).
Proof.
  intros Hr H.
  destruct (burst_inv_reachable _ _ _ _ Hr)
    as (_ & _ & _ & Hst & _ & _ & Hsent & _ & _ & Hend).
  unfold Burst.step in H. destruct (Burst.have_more_data st) eqn:Hh.
  - exfalso. destruct Hst as [E|[E|E]]; rewrite E in H; repeat case_match; discriminate.
  - injection H as <-. destruct (Hend eq_refl) as [E Hq].
    split_and!; try done.
    apply (f_equal length) in Hsent. rewrite !length_map, zrange_length in Hsent.
    unfold bytes in *. done.
Qed.

Lemma burst_done_only_when_finished_witness :
  ex_burst_ended = ex_burst_ended /\ Burst.have_more_data ex_burst_ended = false /\
  Burst.state ex_burst_ended = 0%Z /\
  (exists qs, Burst.queries ex_burst_ended = qs ++ [(Burst.seqno ex_burst_ended, false)]) /\
  length (Burst.sent ex_burst_ended) = Z.to_nat (Burst.seqno ex_burst_ended).
Proof.
  apply (burst_done_only_when_finished 2 1 0 ex_burst_ended (chunks 3) 9 None).
  - apply (run_burst_reachable 2 1 0 (chunks 3) silent_server 9 [] 0). vm_compute. reflexivity.
  - vm_compute. reflexivity.
Defined.



(** *** Command lines *)

(** X15: with exactly three command-line arguments (argv of length 4),
    [client_burst1.py] prints its usage message, while [client_tahoe.py],
    whose guard is [len(sys.argv) <= 3], goes on to read [sys.argv[4]] and
    ends in an IndexError, or in a ValueError raised earlier by [int(...)];
    it never reaches [main]. *)
Theorem tahoe_cli_four_args py_int py_float (argv : list String.string) :
  length argv = 4%nat ->
  burst_cli py_int py_float argv = CliUsage /\
  (tahoe_cli py_int py_float argv = CliIndexError \/
   tahoe_cli py_int py_float argv = CliValueError).
Proof.
  intros Hl. destruct argv as [|a0 [|a1 [|a2 [|a3 [|a4 rest]]]]]; try discriminate.
  split; [reflexivity|].
  unfold tahoe_cli, cli_arg. cbn.
  destruct (py_int a2); [|by right]. destruct (py_int a3); [|by right]. by left.
Qed.

Lemma tahoe_cli_four_args_witness :
  length CliExamples.argv_three_args = 4%nat /\
  burst_cli (fun _ => Some 0%Z) (fun _ => Some 0) CliExamples.argv_three_args = CliUsage /\
  (tahoe_cli (fun _ => Some 0%Z) (fun _ => Some 0) CliExamples.argv_three_args = CliIndexError \/
   tahoe_cli (fun _ => Some 0%Z) (fun _ => Some 0) CliExamples.argv_three_args = CliValueError).
Proof.
  split; [reflexivity|]. apply tahoe_cli_four_args. reflexivity.
Defined.

(** X16: for any other number of command-line arguments the two
    four-parameter clients parse their command lines identically: both
    print the usage message with fewer than three arguments, and with four
    or more both read host, port, [n] and [t] from [argv[1..4]]. *)
Theorem tahoe_burst_cli_agree py_int py_float (argv : list String.string) :
  length argv <> 4%nat ->
  tahoe_cli py_int py_float argv = burst_cli py_int py_float argv.
Proof.
  intros Hl. destruct argv as [|a0 [|a1 [|a2 [|a3 [|a4 rest]]]]];
    [reflexivity | reflexivity | reflexivity | reflexivity | done | reflexivity].
Qed.

Lemma tahoe_burst_cli_agree_witness :
  length CliExamples.argv_four_args <> 4%nat /\
  tahoe_cli (fun _ => Some 0%Z) (fun _ => Some 0) CliExamples.argv_four_args =
  burst_cli (fun _ => Some 0%Z) (fun _ => Some 0) CliExamples.argv_four_args.
Proof.
  split; [discriminate|]. apply tahoe_burst_cli_agree. discriminate.
Defined.

(** X17: the usage guards of [client_burst1.py] and [client_saw.py] are
    long enough for every index they read: their command-line handling
    never raises IndexError (only the usage exit, a ValueError from a
    conversion, or a call of [main]). *)
Theorem burst_saw_cli_no_index_error py_int py_float (argv : list String.string) :
  burst_cli py_int py_float argv <> CliIndexError /\ saw_cli py_int argv <> CliIndexError.
Proof.
  split.
  - destruct argv as [|a0 [|a1 [|a2 [|a3 [|a4 rest]]]]]; try discriminate.
    unfold burst_cli, cli_arg. cbn. repeat case_match; discriminate.
  - destruct argv as [|a0 [|a1 [|a2 rest]]]; try discriminate.
    unfold saw_cli, cli_arg. cbn. repeat case_match; discriminate.
Qed.
